(** * ISEP ICS bridge: the event extraction parser and the cache refresh
      orchestrator of [app/parser.py] and [app/main.py].

    Text is modelled as [string]: a sequence of 8-bit characters, read as the
    code points U+0000..U+00FF of a Python [str].  Python exceptions are the
    [Raise] branch of [result]. *)

From Stdlib Require Import ZArith Ascii String DecimalString List Lia Bool.
From stdpp Require Import base option list gmap strings sorting.

Set Warnings "-register-all,-clear-no-such-hyp".
Local Open Scope Z_scope.

(** ** Exceptions as an error monad *)

Inductive exn :=
| ValueError          (* datetime(...) with a field out of range *)
| TypeError           (* a regex applied to a non-string, naive/aware comparison *)
| AttributeError      (* [.get] on a JSON value that is no object *)
| RequestException    (* requests: transport error, bad status, bad JSON *)
| EncodingError       (* the calendar emitter *)
| OverflowError       (* a timedelta or a datetime out of range *)
| ParserRejectedMarkup. (* BeautifulSoup on markup its parser rejects *)

Inductive result (A : Type) :=
| Ok (a : A)
| Raise (e : exn).
Arguments Ok {A} a.
Arguments Raise {A} e.

#[global] Instance result_ret : MRet result := fun _ a => Ok a.
#[global] Instance result_bind : MBind result := fun _ _ f m =>
  match m with
  | Ok a => f a
  | Raise e => Raise e
  end.

Definition returns {A} (m : result A) : bool :=
  match m with Ok _ => true | Raise _ => false end.

(** ** Characters and the character classes of the patterns *)

Module Chr.

Definition code (c : ascii) : N := N_of_ascii c.

Definition between (lo hi : N) (c : ascii) : bool :=
  ((lo <=? code c) && (code c <=? hi))%N.

Definition one (a : ascii) (c : ascii) : bool := Ascii.eqb a c.

(** [\d] on a [str] pattern: below U+0100 the decimal digits are 0-9. *)
Definition digit : ascii -> bool := between 48 57.

(** [\s] on a [str] pattern, and the separators of [str.split()]: below
    U+0100 these are TAB..CR, FS..US, space, NEL and NBSP. *)
Definition space (c : ascii) : bool :=
  between 9 13 c || between 28 32 c || (code c =? 133)%N || (code c =? 160)%N.

Definition upper : ascii -> bool := between 65 90.
Definition lower : ascii -> bool := between 97 122.

(** [.] under [re.DOTALL], and [[\s\S]]. *)
Definition any (_ : ascii) : bool := true.

(** The class of the two quote characters, single and double. *)
Definition quote (c : ascii) : bool := one "'"%char c || one "034"%char c.

(** [[^{}]] *)
Definition not_brace (c : ascii) : bool := negb (one "{"%char c || one "}"%char c).

(** [[^\)]] *)
Definition not_rparen (c : ascii) : bool := negb (one ")"%char c).

(** [[A-Za-z0-9\-]] *)
Definition room_char (c : ascii) : bool :=
  upper c || lower c || digit c || one "-"%char c.

End Chr.

(** ** Strings: the [str] operations the program uses *)

Module Str.

Fixpoint drop (n : nat) (s : string) : string :=
  match n, s with
  | O, _ => s
  | S n', String _ s' => drop n' s'
  | S _, EmptyString => EmptyString
  end.

(** [s[:n]] *)
Fixpoint take (n : nat) (s : string) : string :=
  match n, s with
  | S n', String c s' => String c (take n' s')
  | _, _ => EmptyString
  end.

(** [s.startswith(p)], returning what follows the prefix. *)
Fixpoint strip_prefix (p s : string) : option string :=
  match p, s with
  | EmptyString, _ => Some s
  | String a p', String b s' => if Ascii.eqb a b then strip_prefix p' s' else None
  | String _ _, EmptyString => None
  end.

(** The text between a string and one of its suffixes. *)
Definition consumed (s rest : string) : string :=
  take (String.length s - String.length rest) s.

(** [s.replace(old, new)]: left to right, without overlap.  [skip] counts
    the characters of a replaced occurrence still to be passed over. *)
Fixpoint replace_from (old new s : string) (skip : nat) : string :=
  match s with
  | EmptyString => EmptyString
  | String c s' =>
      match skip with
      | S n => replace_from old new s' n
      | O =>
          match old, strip_prefix old s with
          | String _ _, Some _ =>
              new +:+ replace_from old new s' (Nat.pred (String.length old))
          | _, _ => String c (replace_from old new s' O)
          end
      end
  end.

Definition replace (old new s : string) : string := replace_from old new s O.

(** [s.split()]: the runs of non-space characters.  [cur] is the run being
    read, in reverse. *)
Fixpoint split_from (s : string) (cur : list ascii) : list string :=
  let flush rest :=
    match cur with
    | [] => rest
    | _ => string_of_list_ascii (rev cur) :: rest
    end in
  match s with
  | EmptyString => flush []
  | String c s' =>
      if Chr.space c then flush (split_from s' [])
      else split_from s' (c :: cur)
  end.

Definition split (s : string) : list string := split_from s [].

(** [sep.join(parts)] *)
Fixpoint join (sep : string) (parts : list string) : string :=
  match parts with
  | [] => EmptyString
  | [p] => p
  | p :: ps => p +:+ sep +:+ join sep ps
  end.

(** [int(s)] on a run of decimal digits. *)
Definition digit_value (c : ascii) : Z := Z.of_N (Chr.code c) - 48.

Fixpoint int_from (acc : Z) (s : string) : Z :=
  match s with
  | EmptyString => acc
  | String c s' => int_from (10 * acc + digit_value c) s'
  end.

Definition int (s : string) : Z := int_from 0 s.

End Str.

(** ** A backtracking matcher for the patterns of [parser.py]

    The patterns repeat single-character classes only, so a repetition is a
    class with its bounds.  Alternatives are tried left to right, a greedy
    repetition tries the longer match first, a lazy one the shorter, as
    Python's [re] does. *)

Module Re.

Inductive regex :=
| Lit (s : string)
| Cls (p : ascii -> bool)
| Rep (p : ascii -> bool) (lo : nat) (hi : option nat) (greedy : bool)
| Seq (r1 r2 : regex)
| Alt (r1 r2 : regex)
| Group (n : nat) (r : regex)
| Backref (n : nat).

Definition groups := gmap nat string.

Definition orelse {A} (x y : option A) : option A :=
  match x with Some a => Some a | None => y end.

Fixpoint rep {A} (p : ascii -> bool) (lo : nat) (hi : option nat)
    (greedy : bool) (s : string) (k : string -> option A) {struct s} : option A :=
  match lo with
  | S lo' =>
      match s with
      | String c s' => if p c then rep p lo' (Nat.pred <$> hi) greedy s' k else None
      | EmptyString => None
      end
  | O =>
      match hi with
      | Some O => k s
      | _ =>
          match s with
          | EmptyString => k s
          | String c s' =>
              let more := if p c then rep p O (Nat.pred <$> hi) greedy s' k else None in
              if greedy then orelse more (k s) else orelse (k s) more
          end
      end
  end.

Fixpoint rmatch {A} (r : regex) (s : string) (g : groups)
    (k : string -> groups -> option A) : option A :=
  match r with
  | Lit l =>
      match Str.strip_prefix l s with
      | Some s' => k s' g
      | None => None
      end
  | Cls p =>
      match s with
      | String c s' => if p c then k s' g else None
      | EmptyString => None
      end
  | Rep p lo hi greedy => rep p lo hi greedy s (fun s' => k s' g)
  | Seq r1 r2 => rmatch r1 s g (fun s' g' => rmatch r2 s' g' k)
  | Alt r1 r2 => orelse (rmatch r1 s g k) (rmatch r2 s g k)
  | Group n r1 => rmatch r1 s g (fun s' g' => k s' (<[n := Str.consumed s s']> g'))
  | Backref n =>
      match g !! n with
      | Some t =>
          match Str.strip_prefix t s with
          | Some s' => k s' g
          | None => None
          end
      | None => None
      end
  end.

(** A match object: [m.start()], [m.end()], [m.group(0)] and the groups. *)
Record match_obj := {
  m_start : nat;
  m_end : nat;
  m_group0 : string;
  m_groups : groups
}.

Definition group (m : match_obj) (n : nat) : string :=
  default EmptyString (m_groups m !! n).

(** A match of [r] that starts at offset [pos], where [s] is the subject
    from [pos] on. *)
Definition match_at (r : regex) (s : string) (pos : nat) : option match_obj :=
  rmatch r s ∅ (fun rest g =>
    Some {| m_start := pos;
            m_end := (pos + (String.length s - String.length rest))%nat;
            m_group0 := Str.consumed s rest;
            m_groups := g |}).

Fixpoint scan (r : regex) (s : string) (pos : nat) : option match_obj :=
  match match_at r s pos with
  | Some m => Some m
  | None =>
      match s with
      | EmptyString => None
      | String _ s' => scan r s' (S pos)
      end
  end.

(** [r.search(s, pos)]: the leftmost match at or after [pos]. *)
Definition search (r : regex) (s : string) (pos : nat) : option match_obj :=
  scan r (Str.drop pos s) (Nat.min pos (String.length s)).

(** [r.findall(s)] for a pattern without groups that cannot match the empty
    string: the texts of the successive matches, none overlapping the one
    before.  [skip] counts the characters of the last match still to be
    passed over. *)
Fixpoint findall_from (r : regex) (s : string) (skip : nat) : list string :=
  match s with
  | EmptyString => []
  | String _ s' =>
      match skip with
      | S n => findall_from r s' n
      | O =>
          match match_at r s O with
          | Some m => m_group0 m :: findall_from r s' (Nat.pred (m_end m))
          | None => findall_from r s' O
          end
      end
  end.

Definition findall (r : regex) (s : string) : list string := findall_from r s O.

(** Concatenation of the pieces of a pattern, in order. *)
Definition cat (rs : list regex) : regex := foldr Seq (Lit EmptyString) rs.

Definition star (p : ascii -> bool) : regex := Rep p 0 None true.
Definition lazy_star (p : ascii -> bool) : regex := Rep p 0 None false.
Definition plus (p : ascii -> bool) : regex := Rep p 1 None true.
Definition times (p : ascii -> bool) (lo hi : nat) : regex := Rep p lo (Some hi) true.

End Re.

(** ** Values and dates *)

(** A decoded JSON value, as [r.json()] returns it.  Numbers are modelled by
    the integers. *)
Inductive json :=
| JNull
| JBool (b : bool)
| JNum (n : Z)
| JStr (s : string)
| JArr (items : list json)
| JObj (fields : list (string * json)).

(** Python truthiness: what [not v] and [if v] test. *)
Definition truthy (v : json) : bool :=
  match v with
  | JNull => false
  | JBool b => b
  | JNum n => negb (n =? 0)
  | JStr s => negb (String.eqb s EmptyString)
  | JArr items => match items with [] => false | _ => true end
  | JObj fields => match fields with [] => false | _ => true end
  end.

(** A naive [datetime] built by [datetime(y, m, d, hh, mm)]; seconds and
    microseconds are always zero here. *)
Record datetime := {
  year : Z;
  month : Z;
  day : Z;
  hour : Z;
  minute : Z
}.

Definition is_leap (y : Z) : bool :=
  (y mod 4 =? 0) && (negb (y mod 100 =? 0) || (y mod 400 =? 0)).

Definition days_in_month (y m : Z) : Z :=
  if m =? 2 then (if is_leap y then 29 else 28)
  else if (m =? 4) || (m =? 6) || (m =? 9) || (m =? 11) then 30
  else 31.

Definition valid_fields (y m d hh mm : Z) : bool :=
  (1 <=? y) && (y <=? 9999) && (1 <=? m) && (m <=? 12) &&
  (1 <=? d) && (d <=? days_in_month y m) &&
  (0 <=? hh) && (hh <=? 23) && (0 <=? mm) && (mm <=? 59).

(** The [datetime] constructor: [ValueError] on a field out of range. *)
Definition mk_datetime (y m d hh mm : Z) : result datetime :=
  if valid_fields y m d hh mm
  then Ok {| year := y; month := m; day := d; hour := hh; minute := mm |}
  else Raise ValueError.

(** ** [app/parser.py] *)

(** The record [extract_events] emits (a dict with these five keys). *)
Record event := {
  ev_start : datetime;
  ev_end : datetime;
  ev_summary : string;
  ev_location : string;
  ev_description : string
}.

Module Parser.
Import Re.

(** [\s*] *)
Definition ws : regex := star Chr.space.

(** [(\d{1,2})] as group [n] *)
Definition num2 (n : nat) : regex := Group n (times Chr.digit 1 2).

Definition DATE_RE : regex :=
  cat [ Lit "new Date("; ws; Group 1 (times Chr.digit 4 4); ws;
        Lit ","; ws; num2 2; ws;
        Lit ","; ws; num2 3; ws;
        Lit ","; ws; num2 4; ws;
        Lit ","; ws; num2 5; ws; Lit ")" ].

Definition EVENT_BLOCK_RE : regex :=
  cat [ Lit "{"; lazy_star Chr.not_brace;
        Cls Chr.quote; Lit "start"; Cls Chr.quote; ws; Lit ":"; ws;
        Lit "new Date("; star Chr.not_rparen; Lit ")"; lazy_star Chr.any;
        Cls Chr.quote; Lit "end"; Cls Chr.quote; ws; Lit ":"; ws;
        Lit "new Date("; star Chr.not_rparen; Lit ")"; lazy_star Chr.any;
        Lit "}" ].

(** The pattern of a quoted field [key]: the key in quotes, a colon, an
    opening quote (group 1), the shortest text (group 2) up to the same
    quote again. *)
Definition FIELD_RE (key : string) : regex :=
  cat [ Cls Chr.quote; Lit key; Cls Chr.quote; ws; Lit ":"; ws;
        Group 1 (Cls Chr.quote); Group 2 (lazy_star Chr.any); Backref 1 ].

(** [(Sala\s+[A-Za-z0-9\-]+|[A-Z]-\d{2,3})] *)
Definition ROOM_RE : regex :=
  Group 1 (Alt (cat [Lit "Sala"; plus Chr.space; plus Chr.room_char])
               (cat [Cls Chr.upper; Lit "-"; times Chr.digit 2 3])).

Definition _parse_js_date (m : match_obj) : result datetime :=
  let y := Str.int (group m 1) in
  let mth := Str.int (group m 2) in
  let d := Str.int (group m 3) in
  let hh := Str.int (group m 4) in
  let mm := Str.int (group m 5) in
  mk_datetime y (mth + 1) d hh mm.

Definition backslash : string := String "092"%char EmptyString.
Definition dquote : string := String "034"%char EmptyString.

Definition unescape_js (s : string) : string :=
  Str.replace (backslash +:+ "r") " "
    (Str.replace (backslash +:+ "n") " "
      (Str.replace (backslash +:+ dquote) dquote
        (Str.replace (backslash +:+ "'") "'" s))).

(** The room heuristic on the stripped title. *)
Definition location_of (title_txt : string) : string :=
  match search ROOM_RE title_txt 0 with
  | Some sala => m_group0 sala
  | None => EmptyString
  end.

Definition nonempty (s : string) : bool := negb (String.eqb s EmptyString).

Section WithSoup.

(** [BeautifulSoup(html, "html.parser").get_text(" ")]: the text of the
    markup, by the external HTML parser, which raises on markup it
    rejects. *)
Variable soup_get_text : string -> result string.

Definition _strip_html (html : string) : result string :=
  text ← soup_get_text html;
  Ok (Str.join " " (Str.split text)).

Definition field_html (key block : string) : string :=
  match search (FIELD_RE key) block 0 with
  | Some m => unescape_js (group m 2)
  | None => EmptyString
  end.

(** The body of the loop over the blocks: [None] is [continue]. *)
Definition parse_block (block : string) : result (option event) :=
  match search DATE_RE block 0 with
  | None => Ok None
  | Some sm =>
      start ← _parse_js_date sm;
      match search DATE_RE block (m_end sm) with
      | None => Ok None
      | Some em =>
          end_ ← _parse_js_date em;
          title_txt ← _strip_html (field_html "title" block);
          body_txt ← _strip_html (field_html "body" block);
          Ok (Some {| ev_start := start;
                      ev_end := end_;
                      ev_summary := if nonempty title_txt
                                    then Str.take 200 title_txt else "Class";
                      ev_location := location_of title_txt;
                      ev_description := if nonempty body_txt
                                        then Str.take 2000 body_txt
                                        else EmptyString |})
      end
  end.

Fixpoint parse_blocks (blocks : list string) (events : list event)
    : result (list event) :=
  match blocks with
  | [] => Ok events
  | block :: rest =>
      r ← parse_block block;
      match r with
      | None => parse_blocks rest events
      | Some ev => parse_blocks rest (events ++ [ev])
      end
  end.

Definition extract_events (js_blob : json) : result (list event) :=
  if negb (truthy js_blob) then Ok []
  else match js_blob with
       | JStr s => parse_blocks (findall EVENT_BLOCK_RE s) []
       | _ => Raise TypeError
       end.

End WithSoup.
End Parser.

(** ** Keys and their order *)

#[global] Instance datetime_eq_dec : EqDecision datetime.
Proof. solve_decision. Defined.

Definition datetime_fields (d : datetime) : Z * Z * Z * Z * Z :=
  (year d, month d, day d, hour d, minute d).

#[global] Instance datetime_countable : Countable datetime.
Proof.
  refine (inj_countable' datetime_fields
            (fun '(y, m, d, hh, mm) =>
               {| year := y; month := m; day := d; hour := hh; minute := mm |}) _).
  intros []; reflexivity.
Defined.

#[global] Instance event_eq_dec : EqDecision event.
Proof. solve_decision. Defined.

(** [datetime.__lt__] on naive values: the fields, most significant first. *)
Definition dt_compare (a b : datetime) : comparison :=
  match year a ?= year b with
  | Eq =>
      match month a ?= month b with
      | Eq =>
          match day a ?= day b with
          | Eq =>
              match hour a ?= hour b with
              | Eq => minute a ?= minute b
              | c => c
              end
          | c => c
          end
      | c => c
      end
  | c => c
  end.

(** [str.__lt__]: code points, left to right; a proper prefix is smaller. *)
Fixpoint str_compare (a b : string) : comparison :=
  match a, b with
  | EmptyString, EmptyString => Eq
  | EmptyString, String _ _ => Lt
  | String _ _, EmptyString => Gt
  | String x a', String y b' =>
      match (Chr.code x ?= Chr.code y)%N with
      | Eq => str_compare a' b'
      | c => c
      end
  end.

(** The dedup key [(ev["start"], ev["end"], ev["summary"])]. *)
Definition dedup_key (ev : event) : datetime * datetime * string :=
  (ev_start ev, ev_end ev, ev_summary ev).

(** The sort key [(e["start"], e["summary"])]. *)
Definition sort_key (ev : event) : datetime * string :=
  (ev_start ev, ev_summary ev).

(** [<] on the tuples of the sort key. *)
Definition key_compare (a b : datetime * string) : comparison :=
  match dt_compare (fst a) (fst b) with
  | Eq => str_compare (snd a) (snd b)
  | c => c
  end.

Definition key_lt (a b : datetime * string) : bool :=
  match key_compare a b with Lt => true | _ => false end.

(** ** [app/main.py] *)

Module Main.

Definition bytes := list Byte.byte.

(** A timezone-aware [datetime]: the instant in microseconds since the epoch
    and the UTC offset of its [tzinfo], in microseconds.  Arithmetic keeps
    the offset; comparison is by instant. *)
Record aware := { instant : Z; utcoffset : Z }.

Definition MINUTE : Z := 60 * 1000000.
Definition DAY : Z := 24 * 60 * MINUTE.
Definition WEEK : Z := 7 * DAY.

(** The wall clock of [datetime.min] and of [datetime.max], in microseconds
    since the epoch, and the largest number of days of a [timedelta]. *)
Definition MIN_US : Z := -62135596800000000.
Definition MAX_US : Z := 253402300799999999.
Definition MAX_DELTA_DAYS : Z := 999999999.

(** The wall clock reading of an aware [datetime]. *)
Definition wall (t : aware) : Z := instant t + utcoffset t.

(** [t + timedelta(microseconds=delta)], and [t + relativedelta(...)]: the
    [timedelta] has at most [MAX_DELTA_DAYS] days, and the wall clock of
    the sum is a [datetime] of the years 1 to 9999; otherwise
    [OverflowError]. *)
Definition shift (t : aware) (delta : Z) : result aware :=
  if (Z.abs (delta / DAY) <=? MAX_DELTA_DAYS)
     && (MIN_US <=? wall t + delta) && (wall t + delta <=? MAX_US)
  then Ok {| instant := instant t + delta; utcoffset := utcoffset t |}
  else Raise OverflowError.

(** The expiry slot starts as the naive [datetime.min]. *)
Inductive expiry :=
| NaiveMin
| At (t : aware).

(** The two globals. *)
Record cache := {
  _cache_ics : option bytes;
  _cache_expires : expiry
}.

Definition initial : cache :=
  {| _cache_ics := None; _cache_expires := NaiveMin |}.

(** What [session.post] returns when it does not raise. *)
Record response := {
  status_ok : bool;            (* [raise_for_status] passes *)
  body : option json           (* [r.json()], [None] when it does not decode *)
}.

(** The calendar object handed to the emitter. *)
Inductive ical_value :=
| VText (s : string)
| VDateTime (t : aware).

Definition ical_props := list (string * ical_value).

Record ical_calendar := {
  cal_props : ical_props;
  cal_events : list ical_props
}.

(** The answer of the [/calendar.ics] handler. *)
Record http_response := {
  content : bytes;
  media_type : string
}.

(** [j.get(key, dflt)]: of a repeated key the decoder keeps the last. *)
Fixpoint last_field (key : string) (fields : list (string * json))
    (found : option json) : option json :=
  match fields with
  | [] => found
  | (k, v) :: rest =>
      last_field key rest (if String.eqb k key then Some v else found)
  end.

Definition dict_get (j : json) (key : string) (dflt : json) : result json :=
  match j with
  | JObj fields => Ok (default dflt (last_field key fields None))
  | _ => Raise AttributeError
  end.

(** [range(lo, hi)] *)
Definition range (lo hi : Z) : list Z := seqZ lo (hi - lo).

Definition str_of_Z (z : Z) : string := NilZero.string_of_int (Z.to_int z).

(** [events.sort(key=...)]: the sort is stable, so it is the insertion of
    each record before the first one whose key is not smaller. *)
Fixpoint insert_sorted (x : event) (l : list event) : list event :=
  match l with
  | [] => [x]
  | y :: l' =>
      if key_lt (sort_key y) (sort_key x) then y :: insert_sorted x l'
      else x :: y :: l'
  end.

Definition sort_events (l : list event) : list event :=
  foldr insert_sorted [] l.

(** The inner loop of [refresh_cache] over one window's records. *)
Fixpoint merge_week (week_events : list event) (events : list event)
    (seen : gset (datetime * datetime * string))
    : list event * gset (datetime * datetime * string) :=
  match week_events with
  | [] => (events, seen)
  | ev :: rest =>
      let key := dedup_key ev in
      if decide (key ∈ seen) then merge_week rest events seen
      else merge_week rest (events ++ [ev]) ({[ key ]} ∪ seen)
  end.

(** The deployment: the configuration read from the environment at
    start-up, and the collaborators (the HTML parser, the clock, the HTTP
    session, the timezone library, the string hash and the calendar
    emitter).  [World] is the state of everything outside the process. *)
Class Env := {
  WEEKS_BEFORE : Z;
  WEEKS_AFTER : Z;
  REFRESH_MIN : Z;
  BASE_URL : string;
  CODE_USER : string;
  CODE_USER_CODE : string;
  ENTIDADE : string;
  soup_get_text : string -> result string;
  World : Type;
  now : World -> aware * World;
  post : string -> json -> World -> option response * World;
  strftime : aware -> string;
  localize : datetime -> result aware;
  py_hash : string -> Z;
  to_ical : ical_calendar -> result bytes
}.

Section Orchestrator.
Context `{Env}.

Definition GET_CODE_WEEK_URL : string :=
  BASE_URL +:+ "/intranet/ver_horario/ver_horario.aspx/getCodeWeekByData".
Definition MUDAR_SEMANA_URL : string :=
  BASE_URL +:+ "/intranet/ver_horario/ver_horario.aspx/mudar_semana".

(** [session.post(...)], [r.raise_for_status()], [r.json()]. *)
Definition post_json (url : string) (payload : json) (w : World)
    : result json * World :=
  let '(r, w1) := post url payload w in
  (match r with
   | None => Raise RequestException
   | Some resp =>
       if status_ok resp
       then match body resp with
            | Some j => Ok j
            | None => Raise RequestException
            end
       else Raise RequestException
   end, w1).

Definition get_code_week_for_date (dt : aware) (w : World)
    : result json * World :=
  let data_str := strftime dt in
  let '(r, w1) := post_json GET_CODE_WEEK_URL (JObj [("data", JStr data_str)]) w in
  (j ← r; dict_get j "d" JNull, w1).

Definition week_payload (code_week : json) : json :=
  JObj [ ("code_week", code_week);
         ("code_user", JStr CODE_USER);
         ("entidade", JStr ENTIDADE);
         ("code_user_code", JStr CODE_USER_CODE) ].

Definition get_week_events (code_week : json) (w : World)
    : result (list event) * World :=
  let payload := week_payload code_week in
  let '(r, w1) := post_json MUDAR_SEMANA_URL payload w in
  (j ← r;
   js_blob ← dict_get j "d" (JStr EmptyString);
   Parser.extract_events soup_get_text js_blob, w1).

Definition or_default (s dflt : string) : string :=
  if Parser.nonempty s then s else dflt.

Definition vevent (ev : event) : result ical_props :=
  dtstart ← localize (ev_start ev);
  dtend ← localize (ev_end ev);
  let uid := str_of_Z (Z.quot (instant dtstart) 1000000) +:+ "-" +:+
             str_of_Z (Z.abs (py_hash (ev_summary ev))) +:+ "@isep-ics" in
  Ok ([ ("dtstart", VDateTime dtstart);
        ("dtend", VDateTime dtend);
        ("summary", VText (or_default (ev_summary ev) "Class")) ]
      ++ (if Parser.nonempty (ev_location ev)
          then [("location", VText (ev_location ev))] else [])
      ++ (if Parser.nonempty (ev_description ev)
          then [("description", VText (ev_description ev))] else [])
      ++ [("uid", VText uid)]).

Fixpoint vevents (all_events : list event) : result (list ical_props) :=
  match all_events with
  | [] => Ok []
  | ev :: rest =>
      ve ← vevent ev;
      ves ← vevents rest;
      Ok (ve :: ves)
  end.

Definition calendar_header : ical_props :=
  [ ("prodid", VText "-//ISEP ICS Bridge//local//");
    ("version", VText "2.0");
    ("method", VText "PUBLISH") ].

Definition build_ics (all_events : list event) : result bytes :=
  ves ← vevents all_events;
  to_ical {| cal_props := calendar_header; cal_events := ves |}.

(** One window of the loop up to the parsed records: [None] when the
    window is left by a [continue]. *)
Definition fetch_window (dt : aware) (w : World)
    : option (list event) * World :=
  let '(r, w1) := get_code_week_for_date dt w in
  match r with
  | Raise _ => (None, w1)
  | Ok code_week =>
      if negb (truthy code_week) then (None, w1)
      else
        let '(r2, w2) := get_week_events code_week w1 in
        match r2 with
        | Raise _ => (None, w2)
        | Ok week_events => (Some week_events, w2)
        end
  end.

(** The loop over the probe instants. *)
Fixpoint for_weeks (weeks : list aware) (events : list event)
    (seen : gset (datetime * datetime * string)) (w : World)
    : list event * gset (datetime * datetime * string) * World :=
  match weeks with
  | [] => (events, seen, w)
  | dt :: rest =>
      let '(r, w1) := fetch_window dt w in
      match r with
      | None => for_weeks rest events seen w1
      | Some week_events =>
          let '(events', seen') := merge_week week_events events seen in
          for_weeks rest events' seen' w1
      end
  end.

(** The record sequences of the windows of a run that were fetched and
    parsed, in processing order, and the run in which none was. *)
Fixpoint fetched (weeks : list aware) (w : World) : list (list event) :=
  match weeks with
  | [] => []
  | dt :: rest =>
      let '(r, w1) := fetch_window dt w in
      match r with
      | None => fetched rest w1
      | Some week_events => week_events :: fetched rest w1
      end
  end.

Fixpoint all_windows_fail (weeks : list aware) (w : World) : Prop :=
  match weeks with
  | [] => True
  | dt :: rest =>
      (fetch_window dt w).1 = None /\ all_windows_fail rest (fetch_window dt w).2
  end.

(** The list comprehension over the weeks: it raises at the first week
    whose instant is out of range. *)
Definition probe_instants (today : aware) : result (list aware) :=
  mapM (fun k => shift today (k * WEEK)) (range (- WEEKS_BEFORE) (WEEKS_AFTER + 1)).

(** The sorted records of a cycle, and [refresh_cache] up to the bytes
    [build_ics] returns for them.  The cookies set on the session and the
    log lines have no part in the result and are left out. *)
Definition cycle_records (w : World) : result (list event) * World :=
  let '(today, w1) := now w in
  match probe_instants today with
  | Raise e => (Raise e, w1)
  | Ok weeks =>
      let '(events, _, w2) := for_weeks weeks [] ∅ w1 in
      (Ok (sort_events events), w2)
  end.

Definition gather (w : World) : result bytes * World :=
  let '(r, w2) := cycle_records w in
  (events ← r; build_ics events, w2).

(** The two assignments that publish, [_cache_ics] first. *)
Definition set_ics (st : cache) (ics : bytes) : cache :=
  {| _cache_ics := Some ics; _cache_expires := _cache_expires st |}.

(** [_cache_expires = datetime.now(APP_TZ) + timedelta(minutes=REFRESH_MIN)]
    after the clock was read: the sum raises when it is out of range, and
    the slot is then not assigned. *)
Definition set_expires (st : cache) (t : aware) : result cache :=
  expires ← shift t (REFRESH_MIN * MINUTE);
  Ok {| _cache_ics := _cache_ics st; _cache_expires := At expires |}.

Definition refresh_cache (st : cache) (w : World)
    : result unit * cache * World :=
  let '(r, w2) := gather w in
  match r with
  | Raise e => (Raise e, st, w2)
  | Ok ics =>
      let st1 := set_ics st ics in
      let '(t, w3) := now w2 in
      match set_expires st1 t with
      | Raise e => (Raise e, st1, w3)
      | Ok st2 => (Ok tt, st2, w3)
      end
  end.

(** [not _cache_ics or now >= _cache_expires]: an aware instant does not
    compare with the naive [datetime.min]. *)
Definition needs_refresh (st : cache) (t : aware) : result bool :=
  match _cache_ics st with
  | None => Ok true
  | Some [] => Ok true
  | Some (_ :: _) =>
      match _cache_expires st with
      | NaiveMin => Raise TypeError
      | At expires => Ok (instant expires <=? instant t)
      end
  end.

Definition respond (st : cache) : http_response :=
  {| content := default [] (_cache_ics st);
     media_type := "text/calendar; charset=utf-8" |}.

(** The branch of the handler that refreshes, then answers. *)
Definition refresh_then_respond (st : cache) (w : World)
    : result http_response * cache * World :=
  let '(r, st', w2) := refresh_cache st w in
  match r with
  | Raise e => (Raise e, st', w2)
  | Ok _ => (Ok (respond st'), st', w2)
  end.

Definition calendar (st : cache) (w : World)
    : result http_response * cache * World :=
  let '(t, w1) := now w in
  match needs_refresh st t with
  | Raise e => (Raise e, st, w1)
  | Ok true => refresh_then_respond st w1
  | Ok false => (Ok (respond st), st, w1)
  end.

(** *** Concurrent requests

    [calendar] is a plain function, which the framework runs on a pool of
    worker threads: requests interleave between the statements of
    [calendar] and of [refresh_cache], and while one of them waits for the
    upstream.  A thread is where it stands in the handler. *)

Inductive thread :=
| AtEntry                    (* about to read the clock *)
| AtGuard (t : aware)        (* about to evaluate the guard *)
| InRefresh                  (* in [refresh_cache], talking to the upstream *)
| AtSetIcs (ics : bytes)     (* about to assign [_cache_ics] *)
| AtSetExpires               (* about to assign [_cache_expires] *)
| AtReturn                   (* about to build the response *)
| Done (r : http_response)
| Failed (e : exn).

Record config := {
  shared : cache;
  pool : list thread;
  world : World
}.

Definition thread_step (th : thread) (st : cache) (w : World)
    : option (thread * cache * World) :=
  match th with
  | AtEntry => let '(t, w1) := now w in Some (AtGuard t, st, w1)
  | AtGuard t =>
      match needs_refresh st t with
      | Raise e => Some (Failed e, st, w)
      | Ok true => Some (InRefresh, st, w)
      | Ok false => Some (AtReturn, st, w)
      end
  | InRefresh =>
      let '(r, w1) := gather w in
      match r with
      | Raise e => Some (Failed e, st, w1)
      | Ok ics => Some (AtSetIcs ics, st, w1)
      end
  | AtSetIcs ics => Some (AtSetExpires, set_ics st ics, w)
  | AtSetExpires =>
      let '(t, w1) := now w in
      match set_expires st t with
      | Raise e => Some (Failed e, st, w1)
      | Ok st' => Some (AtReturn, st', w1)
      end
  | AtReturn => Some (Done (respond st), st, w)
  | Done _ | Failed _ => None
  end.

(** Thread [i] runs its next statement. *)
Definition sched (i : nat) (c : config) : option config :=
  th ← pool c !! i;
  '(th', st', w') ← thread_step th (shared c) (world c);
  Some {| shared := st'; pool := <[i := th']> (pool c); world := w' |}.

Definition step (c c' : config) : Prop := exists i, sched i c = Some c'.

(** A schedule names the thread that runs at each turn; a thread that has
    finished passes its turn. *)
Fixpoint exec (schedule : list nat) (c : config) : config :=
  match schedule with
  | [] => c
  | i :: rest => exec rest (default c (sched i c))
  end.

Definition start (n : nat) (st : cache) (w : World) : config :=
  {| shared := st; pool := replicate n AtEntry; world := w |}.

(** A thread inside [refresh_cache]. *)
Definition refreshing (th : thread) : bool :=
  match th with
  | InRefresh | AtSetIcs _ | AtSetExpires => true
  | _ => false
  end.

Definition in_flight (c : config) : nat :=
  length (filter (fun th => refreshing th = true) (pool c)).

End Orchestrator.
End Main.

(** ** The room heuristic, in the words of the specification *)

Module Room.

(** The longest run of characters of a class at the start of a text, and
    what follows it. *)
Fixpoint span (p : ascii -> bool) (s : string) : string * string :=
  match s with
  | EmptyString => (EmptyString, EmptyString)
  | String c s' =>
      if p c then (String c (span p s').1, (span p s').2)
      else (EmptyString, s)
  end.

(** A labelled room at the start of the text: the word Sala, white space,
    then an identifier of letters, digits and hyphens.  The result is the
    token and the text after it. *)
Definition labelled (s : string) : option (string * string) :=
  match Str.strip_prefix "Sala" s with
  | Some r =>
      let sp := span Chr.space r in
      let id := span Chr.room_char sp.2 in
      if Parser.nonempty sp.1 && Parser.nonempty id.1
      then Some ("Sala" +:+ sp.1 +:+ id.1, id.2)
      else None
  | None => None
  end.

(** A bare room at the start of the text: one uppercase letter, a hyphen,
    two digits and a third when there is one. *)
Definition bare (s : string) : option (string * string) :=
  match s with
  | String a (String h (String d1 (String d2 rest))) =>
      if Chr.upper a && Chr.one "-"%char h && Chr.digit d1 && Chr.digit d2 then
        match rest with
        | String d3 rest' =>
            if Chr.digit d3
            then Some (String a (String h (String d1 (String d2 (String d3 EmptyString)))), rest')
            else Some (String a (String h (String d1 (String d2 EmptyString))), rest)
        | EmptyString =>
            Some (String a (String h (String d1 (String d2 EmptyString))), rest)
        end
      else None
  | _ => None
  end.

(** Either pattern at the start of the text, the labelled one first. *)
Definition at_start (s : string) : option (string * string) :=
  Re.orelse (labelled s) (bare s).

(** The first match, scanning from the left; the empty string if none. *)
Fixpoint first_room (s : string) : string :=
  match at_start s with
  | Some (token, _) => token
  | None =>
      match s with
      | EmptyString => EmptyString
      | String _ s' => first_room s'
      end
  end.


End Room.

(** ** Reference definitions

    Definitions that follow the words of the specification, for comparison
    with the code, and the cache states a sequence of requests can leave. *)

Module Reference.
Import Main.

(** Deduplication by key, first occurrence wins: a record is kept unless
    its key occurred before it. *)
Fixpoint first_occurrences (before : list (datetime * datetime * string))
    (l : list event) : list event :=
  match l with
  | [] => []
  | ev :: rest =>
      if decide (dedup_key ev ∈ before) then first_occurrences before rest
      else ev :: first_occurrences (dedup_key ev :: before) rest
  end.

(** The slot between requests: empty, or an artifact with its expiry.  The
    emitter's output starts with the calendar's opening line, so a published
    artifact has bytes. *)
Definition slot_ok (st : cache) : Prop :=
  match _cache_ics st with
  | None => True
  | Some ics => ics <> [] /\ exists expires, _cache_expires st = At expires
  end.

(** The order of [dt_compare], field by field. *)
Definition dt_before (a b : datetime) : Prop :=
  year a < year b \/ (year a = year b /\
  (month a < month b \/ (month a = month b /\
  (day a < day b \/ (day a = day b /\
  (hour a < hour b \/ (hour a = hour b /\ minute a < minute b))))))).

(** [a] is not after [b]: what the sort leaves between neighbours. *)
Definition key_le (a b : datetime * string) : Prop := key_lt b a = false.

Definition in_order (a b : event) : Prop := key_le (sort_key a) (sort_key b).

(** Ascending by (start, summary): the start is earlier, or the starts are
    the same and the summary is not greater. *)
Definition start_then_summary (a b : event) : Prop :=
  dt_compare (ev_start a) (ev_start b) = Lt \/
  (ev_start a = ev_start b /\
   str_compare (ev_summary a) (ev_summary b) <> Gt).

(** A result that is one record with the given months. *)
Definition one_record_with_months (r : result (list event)) (ms me : Z) : bool :=
  match r with
  | Ok [ev] => (month (ev_start ev) =? ms) && (month (ev_end ev) =? me)
  | _ => false
  end.

(** Refresh execution is serialized: whatever the interleaving of [n]
    requests, at most one of them is inside [refresh_cache] at a time. *)
Definition serialized `{Env} (n : nat) (st : cache) (w : World) : Prop :=
  forall c, rtc step (start n st w) c -> (in_flight c <= 1)%nat.

End Reference.

(** ** Sample inputs *)

Module Sample.

Definition quoted_block (start_args end_args : string) : string :=
  "{'start': new Date(" +:+ start_args +:+ "), 'end': new Date(" +:+ end_args +:+ ")}".

(** A block whose dates are in month [ms] and [me], zero-based. *)
Definition month_block (ms me : Z) : string :=
  quoted_block ("2025, " +:+ Main.str_of_Z ms +:+ ", 18, 18, 10")
               ("2025, " +:+ Main.str_of_Z me +:+ ", 18, 19, 50").

(** A well-formed block, then one whose month is 12: a date that the
    script's [Date] takes for January of the next year. *)
Definition rollover_blob : string :=
  "events: [" +:+ month_block 8 8 +:+ ", " +:+
  quoted_block "2025, 12, 1, 10, 0" "2025, 12, 1, 11, 0" +:+ "]".

(** A block dated January at its start and December at its end, its two
    date tokens as the pattern finds them, and its record when the block
    has no title and no body. *)
Definition jan_dec_block : string := month_block 0 11.

Definition no_match : Re.match_obj :=
  {| Re.m_start := 0; Re.m_end := 0; Re.m_group0 := EmptyString; Re.m_groups := ∅ |}.

Definition start_token : Re.match_obj :=
  default no_match (Re.search Parser.DATE_RE jan_dec_block 0).

Definition end_token : Re.match_obj :=
  default no_match (Re.search Parser.DATE_RE jan_dec_block (Re.m_end start_token)).

Definition jan_dec_record : event :=
  {| ev_start := {| year := 2025; month := 1; day := 18; hour := 18; minute := 10 |};
     ev_end := {| year := 2025; month := 12; day := 18; hour := 19; minute := 50 |};
     ev_summary := "Class";
     ev_location := EmptyString;
     ev_description := EmptyString |}.

End Sample.

(** ** Sample deployments *)

Module Upstream.
Import Main.

(** The outside of the process, with a clock that advances by one microsecond at each reading
    and each request, and a count of the requests sent upstream. *)
Record outside := { clock : Z; posts : nat }.

Definition w0 : outside := {| clock := 1000; posts := 0 |}.

Definition tick (w : outside) : aware * outside :=
  ({| instant := clock w; utcoffset := 3600 * 1000000 |},
   {| clock := clock w + 1; posts := posts w |}).

Definition sent (w : outside) : outside :=
  {| clock := clock w + 1; posts := S (posts w) |}.

(** The portal does not answer: every request raises. *)
Definition unreachable (url : string) (payload : json) (w : outside)
    : option response * outside :=
  (None, sent w).

(** The portal answers every request with an object without fields. *)
Definition blank (url : string) (payload : json) (w : outside)
    : option response * outside :=
  (Some {| status_ok := true; body := Some (JObj []) |}, sent w).

(** The portal resolves every date to the same week, whose blob holds one
    class. *)
Definition one_class : string :=
  "events: [{'start': new Date(2025, 8, 18, 18, 10), " +:+
  "'end': new Date(2025, 8, 18, 19, 50), " +:+
  "'title': 'ALGAV Sala B-204', 'body': 'T'}]".

Definition same_week (url : string) (payload : json) (w : outside)
    : option response * outside :=
  (Some {| status_ok := true;
           body := Some (JObj [("d", JStr (if String.eqb url
                     "https://portal.isep.ipp.pt/intranet/ver_horario/ver_horario.aspx/getCodeWeekByData"
                   then "2025-38" else one_class))]) |},
   sent w).

(** An emitter that writes one byte per event between two marks. *)
Definition marks (cal : ical_calendar) : result bytes :=
  Ok (Byte.x42 :: ((fun _ => Byte.x45) <$> cal_events cal) ++ [Byte.x2e]).

Definition deployment (portal : string -> json -> outside -> option response * outside)
    (emitter : ical_calendar -> result bytes) : Env :=
  {| WEEKS_BEFORE := 0;
     WEEKS_AFTER := 6;
     REFRESH_MIN := 15;
     BASE_URL := "https://portal.isep.ipp.pt";
     CODE_USER := "1230000";
     CODE_USER_CODE := "abc";
     ENTIDADE := "aluno";
     soup_get_text := fun html => Ok html;
     World := outside;
     now := tick;
     post := portal;
     strftime := fun _ => "Thu Sep 25 2025";
     localize := fun dt => Ok {| instant := 0; utcoffset := 3600 * 1000000 |};
     py_hash := fun _ => 7;
     to_ical := emitter |}.

Definition offline : Env := deployment unreachable marks.
Definition empty_answers : Env := deployment blank marks.
Definition online : Env := deployment same_week marks.
Definition broken_emitter : Env :=
  deployment same_week (fun _ => Raise EncodingError).

(** A populated slot that expires at instant 5000. *)
Definition populated : cache :=
  {| _cache_ics := Some [Byte.x42; Byte.x2e];
     _cache_expires := At {| instant := 5000; utcoffset := 3600 * 1000000 |} |}.

End Upstream.

(** ** Sample records *)

Module Records.

Definition at_time (h mi : Z) : datetime :=
  {| year := 2025; month := 9; day := 18; hour := h; minute := mi |}.

Definition class (start end_ : datetime) (summary : string) : event :=
  {| ev_start := start; ev_end := end_; ev_summary := summary;
     ev_location := EmptyString; ev_description := EmptyString |}.

Definition ten_B : event := class (at_time 10 0) (at_time 11 0) "B".
Definition ten_A : event := class (at_time 10 0) (at_time 11 0) "A".
Definition nine_Z : event := class (at_time 9 0) (at_time 10 0) "Z".

(** Two classes with the same start and title that end at different times. *)
Definition short_A : event := class (at_time 10 0) (at_time 11 0) "A".
Definition long_A : event := class (at_time 10 0) (at_time 12 0) "A".

End Records.

(** ** Further reference definitions *)

Module Text.

(** A text occurs inside another. *)
Definition substring (t s : string) : Prop :=
  exists pre post, s = pre +:+ t +:+ post.

(** A character occurs in a text. *)
Fixpoint occurs (c : ascii) (s : string) : bool :=
  match s with
  | EmptyString => false
  | String a s' => Ascii.eqb c a || occurs c s'
  end.

(** A word: at least one character, none of them white space. *)
Fixpoint spaceless (s : string) : bool :=
  match s with
  | EmptyString => true
  | String c s' => negb (Chr.space c) && spaceless s'
  end.

Definition word (s : string) : Prop :=
  s <> EmptyString /\ spaceless s = true.

End Text.


(** ** Requests in sequence, and a count of the upstream requests *)

Module Driver.
Import Main.

Section Sequential.
Context `{Env}.

(** [n] requests to [/calendar.ics], each handled to its end before the
    next arrives: their answers, and the slot and the outside they leave. *)
Fixpoint serve (n : nat) (st : cache) (w : World)
    : list (result http_response) * cache * World :=
  match n with
  | O => ([], st, w)
  | S n' =>
      let '(r, st', w') := calendar st w in
      let '(rs, st'', w'') := serve n' st' w' in
      (r :: rs, st'', w'')
  end.

(** The outside after [n] readings of the clock. *)
Fixpoint after_readings (n : nat) (w : World) : World :=
  match n with
  | O => w
  | S n' => after_readings n' (now w).2
  end.

(** [n] cycles one after the other, up to the bytes: what each returns,
    and the outside they leave. *)
Fixpoint cycles (n : nat) (w : World) : list (result bytes) * World :=
  match n with
  | O => ([], w)
  | S n' =>
      let '(r, w1) := gather w in
      let '(rs, w2) := cycles n' w1 in
      (r :: rs, w2)
  end.

(** Where a request stands when its cycle has returned. *)
Definition after_gather (r : result bytes) : thread :=
  match r with
  | Ok ics => AtSetIcs ics
  | Raise e => Failed e
  end.

End Sequential.

(** A deployment whose outside also counts the calls of [session.post]. *)
Definition counted (E : Env) : Env :=
  {| WEEKS_BEFORE := @WEEKS_BEFORE E;
     WEEKS_AFTER := @WEEKS_AFTER E;
     REFRESH_MIN := @REFRESH_MIN E;
     BASE_URL := @BASE_URL E;
     CODE_USER := @CODE_USER E;
     CODE_USER_CODE := @CODE_USER_CODE E;
     ENTIDADE := @ENTIDADE E;
     soup_get_text := @soup_get_text E;
     World := (@World E * nat)%type;
     now := fun wn => let '(t, w') := @now E wn.1 in (t, (w', wn.2));
     post := fun url payload wn =>
               let '(r, w') := @post E url payload wn.1 in (r, (w', S wn.2));
     strftime := @strftime E;
     localize := @localize E;
     py_hash := @py_hash E;
     to_ical := @to_ical E |}.

(** The calls of [session.post] of one cycle started in [w], and of [n]
    cycles one after the other. *)
Definition cycle_requests (E : Env) (w : @World E) : nat :=
  (@gather (counted E) (w, O)).2.2.

Fixpoint cycles_requests (E : Env) (n : nat) (w : @World E) : nat :=
  match n with
  | O => O
  | S n' => (cycle_requests E w + cycles_requests E n' (@gather E w).2)%nat
  end.

(** The values a component holds under a property name. *)
Definition prop (key : string) (props : ical_props) : list ical_value :=
  (filter (fun kv => kv.1 = key) props).*2.

End Driver.

(** ** The health endpoint and its monitor *)

Module Health.
Import Main.

(** [healthz]: the dict the endpoint returns.  [isoformat] is the
    library's rendering of the expiry slot. *)
Definition healthz (isoformat : expiry -> string) (st : cache)
    : list (string * json) :=
  [ ("status", JStr "ok");
    ("cache_expires", JStr (isoformat (_cache_expires st))) ].

(** [key in health] *)
Definition has_key (key : string) (fields : list (string * json)) : bool :=
  existsb (fun kv => String.eqb kv.1 key) fields.

(** [health.get(key, dflt)] *)
Definition get (fields : list (string * json)) (key : string) (dflt : json)
    : json :=
  default dflt (last_field key fields None).

(** What one pass of the loop of [monitor_cookies] prints for a health
    dict: the error line, or the status line (its mark, the event count,
    the session word, the expiry) followed or not by the alert. *)
Inductive printed :=
| ServiceError (msg : json)
| Status (mark_ok : bool) (events : json) (session_valid : bool)
    (cache_expires : json) (alert : bool).

Definition monitor_pass (health : list (string * json)) : printed :=
  if has_key "error" health then ServiceError (get health "error" JNull)
  else
    Status (truthy (get health "session_valid" (JBool false)))
           (get health "events_count" (JNum 0))
           (truthy (get health "session_valid" JNull))
           (get health "cache_expires" (JStr "unknown"))
           (negb (truthy (get health "session_valid" (JBool false)))).

End Health.

(** ** The cookie utility *)

Module Cookies.

(** [s.split(sep)] for a separator of one character: the pieces between
    its occurrences, of which there is always one. *)
Fixpoint split_on (sep : ascii) (s : string) : list string :=
  match s with
  | EmptyString => [EmptyString]
  | String c s' =>
      if Ascii.eqb c sep then EmptyString :: split_on sep s'
      else match split_on sep s' with
           | p :: ps => String c p :: ps
           | [] => [String c EmptyString]
           end
  end.

(** [s.split(sep, 1)] when [sep in s]: the text before the first
    occurrence and the text after it; [None] when there is none. *)
Fixpoint cut (sep : ascii) (s : string) : option (string * string) :=
  match s with
  | EmptyString => None
  | String c s' =>
      if Ascii.eqb c sep then Some (EmptyString, s')
      else match cut sep s' with
           | Some (a, b) => Some (String c a, b)
           | None => None
           end
  end.

(** [s.strip()] *)
Fixpoint lstrip (s : string) : string :=
  match s with
  | EmptyString => EmptyString
  | String c s' => if Chr.space c then lstrip s' else s
  end.

Fixpoint rstrip (s : string) : string :=
  match s with
  | EmptyString => EmptyString
  | String c s' =>
      match rstrip s' with
      | EmptyString => if Chr.space c then EmptyString else String c EmptyString
      | r => String c r
      end
  end.

Definition strip (s : string) : string := rstrip (lstrip s).

(** The body of the loop of [parse_cookie_string]. *)
Definition add_cookie (cookies : gmap string string) (cookie : string)
    : gmap string string :=
  let cookie := strip cookie in
  match cut "=" cookie with
  | Some (name, value) => <[strip name := strip value]> cookies
  | None => cookies
  end.

Definition parse_cookie_string (cookie_string : string) : gmap string string :=
  foldl add_cookie ∅ (split_on ";" cookie_string).

(** The header a browser shows for a list of cookies:
    [name=value] joined by a semicolon and a space. *)
Fixpoint header (cookies : list (string * string)) : string :=
  match cookies with
  | [] => EmptyString
  | [(name, value)] => name +:+ "=" +:+ value
  | (name, value) :: rest => name +:+ "=" +:+ value +:+ "; " +:+ header rest
  end.

(** A text without white space at either end. *)
Definition trimmed (s : string) : Prop := strip s = s.

(** A name and a value as the utility stores them: trimmed, without a
    semicolon, and without an equals sign in the name. *)
Definition clean (name value : string) : Prop :=
  trimmed name /\ trimmed value /\
  Text.occurs "=" name = false /\ Text.occurs ";" name = false /\
  Text.occurs ";" value = false.

End Cookies.

(** ** Further samples *)

Module Blocks.

(** The block of a class with a title that names a room, and its record. *)
Definition algav_block : string :=
  "{'start': new Date(2025, 8, 18, 18, 10), " +:+
  "'end': new Date(2025, 8, 18, 19, 50), " +:+
  "'title': 'ALGAV Sala B-204', 'body': 'T'}".

Definition algav : event :=
  {| ev_start := {| year := 2025; month := 9; day := 18; hour := 18; minute := 10 |};
     ev_end := {| year := 2025; month := 9; day := 18; hour := 19; minute := 50 |};
     ev_summary := "ALGAV Sala B-204";
     ev_location := "Sala B-204";
     ev_description := "T" |}.

(** Two cookies as a browser lists them. *)
Definition two_cookies : list (string * string) :=
  [ ("ASPSESSIONIDQWSQCCSB", "EIGBHGOBFHPGMNOICAPFMEPA");
    ("_ga", "GA1.1.1519809505.1756756750") ].

End Blocks.
(** * Properties *)

(** ** The order of the sort keys *)

Section OrderFacts.
Import Reference.

Lemma dt_compare_eq a b : dt_compare a b = Eq <-> a = b.
Proof.
  split.
  - destruct a as [y1 m1 d1 h1 i1], b as [y2 m2 d2 h2 i2].
    unfold dt_compare; cbn.
    destruct (Z.compare_spec y1 y2); try discriminate.
    destruct (Z.compare_spec m1 m2); try discriminate.
    destruct (Z.compare_spec d1 d2); try discriminate.
    destruct (Z.compare_spec h1 h2); try discriminate.
    destruct (Z.compare_spec i1 i2); try discriminate.
    now subst.
  - intros ->. unfold dt_compare. now rewrite !Z.compare_refl.
Qed.

Lemma dt_compare_antisym a b : dt_compare b a = CompOpp (dt_compare a b).
Proof.
  unfold dt_compare.
  rewrite (Z.compare_antisym (year a)), (Z.compare_antisym (month a)),
    (Z.compare_antisym (day a)), (Z.compare_antisym (hour a)),
    (Z.compare_antisym (minute a)).
  destruct (year a ?= year b); cbn; try reflexivity.
  destruct (month a ?= month b); cbn; try reflexivity.
  destruct (day a ?= day b); cbn; try reflexivity.
  destruct (hour a ?= hour b); cbn; reflexivity.
Qed.

Lemma dt_compare_lt a b : dt_compare a b = Lt <-> dt_before a b.
Proof.
  unfold dt_compare, dt_before.
  destruct (Z.compare_spec (year a) (year b)); [|intuition lia|intuition (try discriminate; lia)].
  destruct (Z.compare_spec (month a) (month b)); [|intuition lia|intuition (try discriminate; lia)].
  destruct (Z.compare_spec (day a) (day b)); [|intuition lia|intuition (try discriminate; lia)].
  destruct (Z.compare_spec (hour a) (hour b)); [|intuition lia|intuition (try discriminate; lia)].
  rewrite Z.compare_lt_iff. intuition lia.
Qed.

Lemma dt_compare_trans a b c :
  dt_compare a b = Lt -> dt_compare b c = Lt -> dt_compare a c = Lt.
Proof. rewrite !dt_compare_lt. unfold dt_before. lia. Qed.

Lemma code_inj x y : Chr.code x = Chr.code y -> x = y.
Proof.
  unfold Chr.code. intros Hxy.
  rewrite <- (ascii_N_embedding x), <- (ascii_N_embedding y). now f_equal.
Qed.

Lemma str_compare_eq a b : str_compare a b = Eq <-> a = b.
Proof.
  revert b. induction a as [|x a IH]; intros [|y b]; cbn; try easy.
  destruct (N.compare_spec (Chr.code x) (Chr.code y)) as [Hxy| |].
  - apply code_inj in Hxy. subst y. rewrite IH. split; congruence.
  - split; [easy|]. intros [= -> _]. lia.
  - split; [easy|]. intros [= -> _]. lia.
Qed.

Lemma str_compare_antisym a b : str_compare b a = CompOpp (str_compare a b).
Proof.
  revert b. induction a as [|x a IH]; intros [|y b]; cbn; try reflexivity.
  rewrite (N.compare_antisym (Chr.code x)).
  destruct (Chr.code x ?= Chr.code y)%N; cbn; auto.
Qed.

Lemma str_compare_trans a b c :
  str_compare a b = Lt -> str_compare b c = Lt -> str_compare a c = Lt.
Proof.
  revert b c. induction a as [|x a IH]; intros [|y b] [|z c]; cbn; try easy.
  destruct (N.compare_spec (Chr.code x) (Chr.code y)) as [Hxy|Hxy|Hxy];
    destruct (N.compare_spec (Chr.code y) (Chr.code z)) as [Hyz|Hyz|Hyz];
    try easy; intros Hab Hbc.
  - rewrite Hxy, Hyz, N.compare_refl. eauto.
  - rewrite Hxy. now apply N.compare_lt_iff in Hyz as ->.
  - rewrite <- Hyz. now apply N.compare_lt_iff in Hxy as ->.
  - assert (Hxz : (Chr.code x < Chr.code z)%N) by lia.
    now apply N.compare_lt_iff in Hxz as ->.
Qed.

Lemma key_compare_eq a b : key_compare a b = Eq <-> a = b.
Proof.
  destruct a as [s1 t1], b as [s2 t2]. unfold key_compare; cbn.
  destruct (dt_compare s1 s2) eqn:Hs.
  - apply dt_compare_eq in Hs as ->. rewrite str_compare_eq. split; congruence.
  - split; [easy|]. intros [= -> _].
    assert (dt_compare s2 s2 = Eq) by now apply dt_compare_eq. congruence.
  - split; [easy|]. intros [= -> _].
    assert (dt_compare s2 s2 = Eq) by now apply dt_compare_eq. congruence.
Qed.

Lemma key_compare_antisym a b : key_compare b a = CompOpp (key_compare a b).
Proof.
  unfold key_compare. rewrite dt_compare_antisym, str_compare_antisym.
  now destruct (dt_compare (fst a) (fst b)).
Qed.

Lemma key_compare_trans a b c :
  key_compare a b = Lt -> key_compare b c = Lt -> key_compare a c = Lt.
Proof.
  unfold key_compare.
  destruct (dt_compare a.1 b.1) eqn:Hab; try easy;
    destruct (dt_compare b.1 c.1) eqn:Hbc; try easy; intros H1 H2.
  - apply dt_compare_eq in Hab, Hbc. rewrite Hab, Hbc.
    assert (dt_compare c.1 c.1 = Eq) as -> by now apply dt_compare_eq.
    eauto using str_compare_trans.
  - apply dt_compare_eq in Hab. now rewrite Hab, Hbc.
  - apply dt_compare_eq in Hbc. now rewrite <- Hbc, Hab.
  - now rewrite (dt_compare_trans _ _ _ Hab Hbc).
Qed.

Lemma key_lt_irrefl a : key_lt a a = false.
Proof.
  unfold key_lt. now assert (key_compare a a = Eq) as -> by now apply key_compare_eq.
Qed.

Lemma key_lt_le a b : key_lt a b = true -> key_le a b.
Proof.
  unfold key_le, key_lt. rewrite (key_compare_antisym a b).
  now destruct (key_compare a b).
Qed.

Lemma key_le_cases a b : key_le a b <-> key_lt a b = true \/ a = b.
Proof.
  unfold key_le, key_lt. rewrite <- key_compare_eq, (key_compare_antisym a b).
  destruct (key_compare a b); cbn; intuition congruence.
Qed.

Lemma key_le_trans a b c : key_le a b -> key_le b c -> key_le a c.
Proof.
  rewrite !key_le_cases. unfold key_lt.
  intros [Hab | ->] [Hbc | ->]; auto. left.
  destruct (key_compare a b) eqn:H1; try easy.
  destruct (key_compare b c) eqn:H2; try easy.
  now rewrite (key_compare_trans _ _ _ H1 H2).
Qed.

Lemma key_le_antisym a b : key_le a b -> key_le b a -> a = b.
Proof.
  rewrite !key_le_cases. unfold key_lt.
  intros [Hab | ->] [Hba | Heq]; auto.
  rewrite (key_compare_antisym a b) in Hba.
  now destruct (key_compare a b).
Qed.

End OrderFacts.

(** ** The orchestrator *)

Section OrchestratorFacts.
Import Main Reference.
Context `{Env}.

Lemma extract_events_falsy (soup : string -> result string) (v : json) :
  truthy v = false -> Parser.extract_events soup v = Ok [].
Proof. intros Hv. unfold Parser.extract_events. now rewrite Hv. Qed.

Lemma post_json_ok url payload w j w1 :
  post url payload w = (Some {| status_ok := true; body := Some j |}, w1) ->
  post_json url payload w = (Ok j, w1).
Proof. intros Hp. unfold post_json. now rewrite Hp. Qed.

(** C10: when the week-fetch call succeeds and the decoded body has no "d"
    field, or has one whose value is null or empty, [get_week_events] returns
    the empty record list without raising: the blob is then falsy, and
    [extract_events] returns the empty list for every falsy blob. *)
Theorem get_week_events_without_blob code_week w fields w1 :
  post MUDAR_SEMANA_URL (week_payload code_week) w
    = (Some {| status_ok := true; body := Some (JObj fields) |}, w1) ->
  (last_field "d" fields None = None \/
   exists v, last_field "d" fields None = Some v /\ truthy v = false) ->
  get_week_events code_week w = (Ok [], w1) /\
  Parser.extract_events soup_get_text JNull = Ok [] /\
  Parser.extract_events soup_get_text (JStr EmptyString) = Ok [].
Proof.
  intros Hpost Hd. split; [|split; apply extract_events_falsy; reflexivity].
  unfold get_week_events. rewrite (post_json_ok _ _ _ _ _ Hpost). cbn.
  destruct Hd as [-> | (v & -> & Hv)]; cbn.
  - reflexivity.
  - now rewrite extract_events_falsy.
Qed.

Lemma for_weeks_all_fail weeks events seen w :
  all_windows_fail weeks w ->
  exists w', for_weeks weeks events seen w = (events, seen, w').
Proof.
  revert w. induction weeks as [|dt rest IH]; intros w Hall; cbn.
  - now exists w.
  - destruct Hall as [Hnone Hrest].
    destruct (fetch_window dt w) as [r w1]; cbn in *; subst r.
    now apply IH.
Qed.

Lemma build_ics_nil : build_ics [] = to_ical {| cal_props := calendar_header; cal_events := [] |}.
Proof. reflexivity. Qed.

Lemma shift_Ok (t t' : aware) (delta : Z) :
  shift t delta = Ok t' ->
  instant t' = instant t + delta /\ utcoffset t' = utcoffset t.
Proof.
  unfold shift. destruct (_ && _); [|discriminate]. now intros [= <-].
Qed.

Lemma shift_Raise (t : aware) (delta : Z) (e : exn) :
  shift t delta = Raise e -> e = OverflowError.
Proof.
  unfold shift. destruct (_ && _); [discriminate|]. now intros [= <-].
Qed.

(** C3: when the windows of a cycle are built and every one of them fails
    at its week-resolution or week-fetch step, the emitter accepts the
    calendar without events, and the configured minutes after the clock
    reading that follows the build are a [datetime], then [refresh_cache]
    completes: it stores the bytes built from zero records (the slot is no
    longer absent) and that expiry. *)
Theorem refresh_cache_all_windows_fail st w weeks ics expires :
  probe_instants (now w).1 = Ok weeks ->
  all_windows_fail weeks (now w).2 ->
  to_ical {| cal_props := calendar_header; cal_events := [] |} = Ok ics ->
  shift (now (cycle_records w).2).1 (REFRESH_MIN * MINUTE) = Ok expires ->
  exists w2,
    cycle_records w = (Ok [], w2) /\
    build_ics [] = Ok ics /\
    refresh_cache st w =
      (Ok tt,
       {| _cache_ics := Some ics; _cache_expires := At expires |},
       (now w2).2) /\
    instant expires = instant (now w2).1 + REFRESH_MIN * MINUTE.
Proof.
  intros Hweeks Hall Hical Hexp.
  destruct (for_weeks_all_fail _ [] ∅ _ Hall) as [w2 Hloop].
  assert (Hrec : cycle_records w = (Ok [], w2)).
  { unfold cycle_records. destruct (now w) as [today w1]; cbn in *.
    now rewrite Hweeks, Hloop. }
  rewrite Hrec in Hexp. cbn [snd] in Hexp.
  exists w2. split; [exact Hrec|]. split; [now rewrite build_ics_nil|].
  split; [|exact (proj1 (shift_Ok _ _ _ Hexp))].
  unfold refresh_cache, gather. rewrite Hrec. cbn [mbind result_bind].
  rewrite build_ics_nil, Hical.
  destruct (now w2) as [t w3]; cbn [fst snd] in *.
  unfold set_expires. now rewrite Hexp.
Qed.

(** C4: when [build_ics] raises on the sorted records of a cycle,
    [refresh_cache] raises the same exception before either assignment: the
    cached bytes and the expiry are those from before the cycle. *)
Theorem refresh_cache_build_failure st w events e :
  (cycle_records w).1 = Ok events ->
  build_ics events = Raise e ->
  refresh_cache st w = (Raise e, st, (cycle_records w).2) /\
  _cache_ics (refresh_cache st w).1.2 = _cache_ics st /\
  _cache_expires (refresh_cache st w).1.2 = _cache_expires st.
Proof.
  intros Hrec Hbuild.
  assert (Hr : refresh_cache st w = (Raise e, st, (cycle_records w).2)).
  { unfold refresh_cache, gather.
    destruct (cycle_records w) as [r w2]; cbn [fst snd] in *. subst r.
    cbn [mbind result_bind]. now rewrite Hbuild. }
  now rewrite Hr.
Qed.

Lemma slot_ok_initial : slot_ok initial.
Proof. exact I. Qed.

Lemma gather_Ok_nonempty (w : World) (ics : bytes) :
  (forall cal ics, to_ical cal = Ok ics -> ics <> []) ->
  (gather w).1 = Ok ics -> ics <> [].
Proof.
  intros Hemit. unfold gather. destruct (cycle_records w) as [[events|e] w2];
    cbn; [|discriminate].
  unfold build_ics. destruct (vevents events) as [ves|]; cbn; [|discriminate].
  apply Hemit.
Qed.

(** The answers of [calendar] keep the slot in shape, for an emitter whose
    output is never empty, unless the expiry of a refresh is out of
    range. *)
Lemma slot_ok_calendar st w :
  (forall cal ics, to_ical cal = Ok ics -> ics <> []) ->
  slot_ok st ->
  (calendar st w).1.1 <> Raise OverflowError ->
  slot_ok (calendar st w).1.2.
Proof.
  intros Hemit Hok. unfold calendar. destruct (now w) as [t w1].
  destruct (needs_refresh st t) as [[|]|e]; cbn; try (intros _; assumption).
  unfold refresh_then_respond, refresh_cache.
  pose proof (gather_Ok_nonempty w1) as Hne.
  destruct (gather w1) as [[ics|e] w2]; cbn [fst] in Hne; [|intros _; assumption].
  destruct (now w2) as [t2 w3]. unfold set_expires.
  destruct (shift t2 (REFRESH_MIN * MINUTE)) as [expires|e] eqn:Hs; cbn.
  - intros _. split; [now apply Hne|eauto].
  - apply shift_Raise in Hs as ->. contradiction.
Qed.

End OrchestratorFacts.

(** ** Merging the windows *)

Section MergeFacts.
Import Main Reference.

Lemma first_occurrences_ext b1 b2 l :
  (forall k, k ∈ b1 <-> k ∈ b2) ->
  first_occurrences b1 l = first_occurrences b2 l.
Proof.
  revert b1 b2. induction l as [|ev l IH]; intros b1 b2 Hb; cbn; [reflexivity|].
  destruct (decide (dedup_key ev ∈ b1)) as [Hin|Hin];
    destruct (decide (dedup_key ev ∈ b2)) as [Hin'|Hin'];
    try (exfalso; apply Hb in Hin || apply Hb in Hin'; contradiction).
  - now apply IH.
  - f_equal. apply IH. intros k. rewrite !elem_of_cons, Hb. reflexivity.
Qed.

Lemma first_occurrences_app b l1 l2 :
  first_occurrences b (l1 ++ l2) =
  first_occurrences b l1 ++ first_occurrences ((dedup_key <$> l1) ++ b) l2.
Proof.
  revert b. induction l1 as [|ev l1 IH]; intros b; cbn; [reflexivity|].
  destruct (decide (dedup_key ev ∈ b)) as [Hin|Hin].
  - rewrite IH. f_equal. apply first_occurrences_ext.
    intros k. rewrite elem_of_cons, !elem_of_app. naive_solver.
  - cbn. f_equal. rewrite IH. f_equal. apply first_occurrences_ext.
    intros k. rewrite !elem_of_app, !elem_of_cons, elem_of_app. naive_solver.
Qed.

Lemma first_occurrences_seen b l :
  (forall ev, ev ∈ l -> dedup_key ev ∈ b) -> first_occurrences b l = [].
Proof.
  induction l as [|ev l IH]; intros Hall; cbn; [reflexivity|].
  destruct (decide (dedup_key ev ∈ b)) as [Hin|Hin].
  - apply IH. intros ev' Hev'. apply Hall. now right.
  - exfalso. apply Hin, Hall. now left.
Qed.

Lemma first_occurrences_sub b l ev :
  ev ∈ first_occurrences b l -> ev ∈ l /\ dedup_key ev ∉ b.
Proof.
  revert b. induction l as [|x l IH]; intros b; cbn; [now rewrite elem_of_nil|].
  destruct (decide (dedup_key x ∈ b)) as [Hin|Hin].
  - intros Hev. destruct (IH _ Hev). split; [now right|assumption].
  - rewrite elem_of_cons. intros [-> | Hev]; [split; [now left|assumption]|].
    destruct (IH _ Hev) as [? Hnot]. split; [now right|].
    intros Hb. apply Hnot. now right.
Qed.

Lemma first_occurrences_NoDup b l :
  NoDup (dedup_key <$> first_occurrences b l).
Proof.
  revert b. induction l as [|x l IH]; intros b; cbn; [constructor|].
  destruct (decide (dedup_key x ∈ b)) as [Hin|Hin]; [apply IH|].
  cbn. constructor; [|apply IH].
  rewrite list_elem_of_fmap. intros (ev & Hkey & Hev).
  apply first_occurrences_sub in Hev as [_ Hnot]. apply Hnot.
  rewrite Hkey. now left.
Qed.

Lemma first_occurrences_covers b l ev :
  ev ∈ l -> dedup_key ev ∈ b \/ dedup_key ev ∈ dedup_key <$> first_occurrences b l.
Proof.
  revert b. induction l as [|x l IH]; intros b; [now rewrite elem_of_nil|].
  rewrite elem_of_cons. cbn. intros [-> | Hev].
  - destruct (decide (dedup_key x ∈ b)); [now left|right; now left].
  - destruct (decide (dedup_key x ∈ b)); [now apply IH|].
    destruct (IH (dedup_key x :: b) Hev) as [Hb | Hk].
    + apply elem_of_cons in Hb as [-> | Hb]; [right; now left|now left].
    + right. now right.
Qed.

(** The loop over one window, against the list of keys met so far. *)
Lemma merge_week_first wk events seen before :
  (forall k, k ∈ seen <-> k ∈ before) ->
  (merge_week wk events seen).1 = events ++ first_occurrences before wk /\
  (forall k, k ∈ (merge_week wk events seen).2 <-> k ∈ (dedup_key <$> wk) ++ before).
Proof.
  revert events seen before.
  induction wk as [|ev wk IH]; intros events seen before Hseen; cbn.
  - split; [now rewrite app_nil_r|assumption].
  - destruct (decide (dedup_key ev ∈ seen)) as [Hin|Hin];
      destruct (decide (dedup_key ev ∈ before)) as [Hin'|Hin'];
      try (exfalso; apply Hseen in Hin || apply Hseen in Hin'; contradiction).
    + destruct (IH events seen before Hseen) as [-> Hk]. split; [reflexivity|].
      intros k. rewrite Hk, elem_of_cons, !elem_of_app. naive_solver.
    + destruct (IH (events ++ [ev]) ({[dedup_key ev]} ∪ seen) (dedup_key ev :: before))
        as [-> Hk].
      { intros k. rewrite elem_of_union, elem_of_singleton, elem_of_cons, Hseen.
        reflexivity. }
      split; [now rewrite <- app_assoc|].
      intros k. rewrite Hk, elem_of_cons, !elem_of_app, elem_of_cons. naive_solver.
Qed.

Lemma merge_week_seen (wk events : list event) (seen : gset (datetime * datetime * string)) :
  (forall ev, ev ∈ wk -> dedup_key ev ∈ seen) ->
  merge_week wk events seen = (events, seen).
Proof.
  induction wk as [|ev wk IH]; intros Hall; cbn; [reflexivity|].
  destruct (decide (dedup_key ev ∈ seen)) as [Hin|Hin].
  - apply IH. intros ev' Hev'. apply Hall. now right.
  - exfalso. apply Hin, Hall. now left.
Qed.

Lemma filter_none {A} (P : A -> Prop) `{forall x, Decision (P x)} (l : list A) :
  (forall r, r ∈ l -> ~ P r) -> filter P l = [].
Proof.
  induction l as [|y l IH]; intros Hall; [reflexivity|].
  rewrite filter_cons. destruct (decide (P y)) as [Hy|Hy].
  - exfalso. apply (Hall y); [now left|assumption].
  - apply IH. intros r Hr. apply Hall. now right.
Qed.

Lemma filter_key_NoDup {A B} `{EqDecision B} (f : A -> B) (l : list A) (x : A) :
  NoDup (f <$> l) -> x ∈ l ->
  length (filter (fun r => f r = f x) l) = 1%nat.
Proof.
  induction l as [|y l IH]; [now rewrite elem_of_nil|].
  rewrite fmap_cons, NoDup_cons, elem_of_cons. intros [Hy Hnd] Hx.
  rewrite filter_cons. destruct (decide (f y = f x)) as [Heq|Hne].
  - cbn [length]. f_equal. rewrite filter_none; [reflexivity|].
    intros r Hr Hrx. apply Hy. rewrite Heq, <- Hrx.
    apply list_elem_of_fmap. eauto.
  - destruct Hx as [-> | Hx]; [congruence|]. now apply IH.
Qed.

End MergeFacts.

Section MergeLoop.
Import Main Reference.
Context `{Env}.

Lemma for_weeks_first (weeks : list aware) (events : list event)
    (seen : gset (datetime * datetime * string))
    (before : list (datetime * datetime * string)) (w : World) :
  (forall k, k ∈ seen <-> k ∈ before) ->
  (for_weeks weeks events seen w).1.1
    = events ++ first_occurrences before (concat (fetched weeks w)) /\
  (forall k, k ∈ (for_weeks weeks events seen w).1.2
             <-> k ∈ (dedup_key <$> concat (fetched weeks w)) ++ before).
Proof.
  revert events seen before w.
  induction weeks as [|dt rest IH]; intros events seen before w Hseen; cbn.
  - split; [now rewrite app_nil_r|assumption].
  - destruct (fetch_window dt w) as [[wk|] w1]; [|now apply IH].
    destruct (merge_week_first wk events seen before Hseen) as [Hev Hk].
    destruct (merge_week wk events seen) as [events' seen']; cbn in Hev, Hk.
    destruct (IH events' seen' ((dedup_key <$> wk) ++ before) w1 Hk) as [-> Hk'].
    cbn [concat]. split.
    + now rewrite first_occurrences_app, Hev, <- app_assoc.
    + intros k. rewrite Hk', fmap_app, !elem_of_app. tauto.
Qed.

Lemma mapM_Ok_fmap {A B} (f : A -> result B) (g : A -> B) (l : list A)
    (l' : list B) :
  (forall x y, f x = Ok y -> y = g x) ->
  mapM f l = Ok l' -> l' = g <$> l.
Proof.
  intros Hfg. revert l'. induction l as [|x l IH]; intros l'; cbn [mapM].
  - now intros [= <-].
  - destruct (f x) as [y|e] eqn:Hx; cbn [mbind result_bind]; [|discriminate].
    destruct (mapM f l) as [k|e]; cbn; [|discriminate].
    intros [= <-]. cbn. now rewrite (Hfg x y Hx), (IH k eq_refl).
Qed.

(** The windows that were built are the clock reading moved by whole
    weeks. *)
Lemma probe_instants_Ok (today : aware) (weeks : list aware) :
  probe_instants today = Ok weeks ->
  weeks = (fun k => {| instant := instant today + k * WEEK;
                       utcoffset := utcoffset today |})
          <$> range (- WEEKS_BEFORE) (WEEKS_AFTER + 1).
Proof.
  apply mapM_Ok_fmap. intros k t Hk. unfold shift in Hk.
  destruct (_ && _); [|discriminate]. now injection Hk as <-.
Qed.

(** The probe instants are processed earliest first. *)
Lemma probe_instants_ascending (today : aware) (weeks : list aware) :
  probe_instants today = Ok weeks ->
  Sorted (fun a b => instant a < instant b) weeks.
Proof.
  intros ->%probe_instants_Ok. unfold range.
  generalize (WEEKS_AFTER + 1 - - WEEKS_BEFORE) as n.
  generalize (- WEEKS_BEFORE) as lo. intros lo n. revert lo.
  destruct (Z.le_gt_cases n 0) as [Hn|Hn].
  { intros lo. unfold seqZ. replace (Z.to_nat n) with 0%nat by lia. constructor. }
  rewrite <- (Z2Nat.id n) by lia. generalize (Z.to_nat n) as len. clear n Hn.
  induction len as [|len IH]; intros lo; [constructor|].
  rewrite seqZ_cons by lia. rewrite fmap_cons.
  replace (Z.pred (Z.of_nat (S len))) with (Z.of_nat len) by lia.
  constructor; [apply IH|].
  destruct len as [|len]; [constructor|].
  rewrite seqZ_cons by lia. rewrite fmap_cons. constructor.
  unfold WEEK, DAY, MINUTE. cbn. lia.
Qed.

(** C5: the records the loop of a cycle gathers are the records of the
    fetched windows, in processing order, each kept unless its key
    (start, end, summary) occurred before it: the first occurrence wins.
    Every record of every window has exactly one record with its key in the
    merged list, and merging all the windows' records once more changes
    neither the list nor the set of keys.  The windows are processed in the
    order of the list, which for a cycle is earliest probe instant first. *)
Theorem merge_keeps_first_occurrence (weeks : list aware) (w : World) :
  let records := concat (fetched weeks w) in
  let merged := (for_weeks weeks [] ∅ w).1.1 in
  let seen := (for_weeks weeks [] ∅ w).1.2 in
  merged = first_occurrences [] records /\
  NoDup (dedup_key <$> merged) /\
  Forall (fun ev =>
    length (filter (fun r => dedup_key r = dedup_key ev) merged) = 1%nat) records /\
  merge_week records merged seen = (merged, seen) /\
  (forall today windows,
     probe_instants today = Ok windows ->
     Sorted (fun a b => instant a < instant b) windows).
Proof.
  intros records merged seen.
  destruct (for_weeks_first weeks [] ∅ [] w) as [Hm Hk].
  { intros k. rewrite elem_of_empty, elem_of_nil. tauto. }
  fold records merged in Hm. fold records seen in Hk. cbn in Hm.
  assert (Hnd : NoDup (dedup_key <$> merged)).
  { rewrite Hm. apply first_occurrences_NoDup. }
  split; [exact Hm|]. split; [exact Hnd|]. split; [|split].
  - apply Forall_forall. intros ev Hev.
    destruct (first_occurrences_covers [] records ev Hev) as [Hb|Hin].
    { now apply elem_of_nil in Hb. }
    rewrite <- Hm in Hin. apply list_elem_of_fmap in Hin as (r & Hkey & Hr).
    rewrite Hkey. now apply filter_key_NoDup.
  - apply merge_week_seen. intros ev Hev. apply Hk.
    rewrite app_nil_r. apply list_elem_of_fmap. eauto.
  - apply probe_instants_ascending.
Qed.

End MergeLoop.

(** ** Sorting *)

Section SortFacts.
Import Main Reference.

#[local] Instance in_order_trans : Transitive in_order.
Proof. intros a b c. apply key_le_trans. Qed.

Lemma insert_sorted_perm x l : insert_sorted x l ≡ₚ x :: l.
Proof.
  induction l as [|y l IH]; cbn; [reflexivity|].
  destruct (key_lt (sort_key y) (sort_key x)); [|reflexivity].
  rewrite IH. apply Permutation_swap.
Qed.

Lemma sort_events_perm l : sort_events l ≡ₚ l.
Proof.
  induction l as [|x l IH]; cbn; [reflexivity|].
  fold (sort_events l). now rewrite insert_sorted_perm, IH.
Qed.

Lemma insert_sorted_HdRel a x l :
  in_order a x -> HdRel in_order a l -> HdRel in_order a (insert_sorted x l).
Proof.
  intros Hax Hal. destruct l as [|y l]; cbn; [now constructor|].
  destruct (key_lt (sort_key y) (sort_key x)); constructor;
    [now inversion Hal|assumption].
Qed.

Lemma insert_sorted_Sorted x l :
  Sorted in_order l -> Sorted in_order (insert_sorted x l).
Proof.
  induction l as [|y l IH]; cbn; intros Hs; [repeat constructor|].
  destruct (key_lt (sort_key y) (sort_key x)) eqn:Hyx.
  - inversion Hs; subst. constructor; [now apply IH|].
    apply insert_sorted_HdRel; [|assumption]. now apply key_lt_le.
  - constructor; [assumption|]. constructor. exact Hyx.
Qed.

Lemma sort_events_Sorted l : Sorted in_order (sort_events l).
Proof.
  induction l as [|x l IH]; cbn; [constructor|]. now apply insert_sorted_Sorted.
Qed.

(** The sort is stable: the records of one key keep their order. *)
Lemma insert_sorted_filter k x l :
  filter (fun r => sort_key r = k) (insert_sorted x l)
  = filter (fun r => sort_key r = k) (x :: l).
Proof.
  induction l as [|y l IH]; cbn [insert_sorted]; [reflexivity|].
  destruct (key_lt (sort_key y) (sort_key x)) eqn:Hyx; [|reflexivity].
  rewrite (filter_cons _ y), IH, !(filter_cons _ x), (filter_cons _ y).
  destruct (decide (sort_key y = k)) as [Hy|Hy]; [|reflexivity].
  destruct (decide (sort_key x = k)) as [Hx|Hx]; [|reflexivity].
  rewrite Hy, Hx, key_lt_irrefl in Hyx. discriminate.
Qed.

Lemma sort_events_stable k l :
  filter (fun r => sort_key r = k) (sort_events l)
  = filter (fun r => sort_key r = k) l.
Proof.
  induction l as [|x l IH]; cbn [sort_events foldr]; [reflexivity|].
  fold (sort_events l). now rewrite insert_sorted_filter, !filter_cons, IH.
Qed.

Lemma NoDup_fmap_eq {A B} (f : A -> B) (l : list A) x y :
  NoDup (f <$> l) -> x ∈ l -> y ∈ l -> f x = f y -> x = y.
Proof.
  induction l as [|z l IH]; [now rewrite elem_of_nil|].
  rewrite fmap_cons, NoDup_cons, !elem_of_cons.
  intros [Hz Hnd] [-> | Hx] [-> | Hy] Hxy; auto.
  - exfalso. apply Hz. rewrite Hxy. apply list_elem_of_fmap. eauto.
  - exfalso. apply Hz. rewrite <- Hxy. apply list_elem_of_fmap. eauto.
Qed.

Lemma sort_events_unique l1 l2 :
  l1 ≡ₚ l2 -> NoDup (sort_key <$> l1) -> sort_events l1 = sort_events l2.
Proof.
  intros Hperm Hnd.
  apply (Sorted_unique_strong in_order); try apply sort_events_Sorted.
  - intros x1 x2 Hx1 Hx2 H12 H21.
    rewrite sort_events_perm in Hx1. rewrite sort_events_perm, <- Hperm in Hx2.
    pose proof (key_le_antisym _ _ H12 H21) as Hkey.
    now apply (NoDup_fmap_eq sort_key l1).
  - now rewrite !sort_events_perm.
Qed.

Lemma in_order_start_then_summary (a b : event) :
  in_order a b <-> start_then_summary a b.
Proof.
  unfold in_order, key_le, key_lt, start_then_summary.
  rewrite (key_compare_antisym (sort_key a) (sort_key b)).
  unfold key_compare, sort_key; cbn [fst snd].
  destruct (dt_compare (ev_start a) (ev_start b)) eqn:Hs.
  - apply dt_compare_eq in Hs.
    destruct (str_compare (ev_summary a) (ev_summary b)); cbn;
      intuition congruence.
  - cbn. intuition.
  - cbn. split; [discriminate|]. intros [Hlt | [Heq _]]; [discriminate|].
    apply dt_compare_eq in Heq. congruence.
Qed.

Lemma Sorted_weaken {A} (R R' : A -> A -> Prop) (l : list A) :
  (forall a b, R a b -> R' a b) -> Sorted R l -> Sorted R' l.
Proof.
  intros HR. induction 1 as [|x l Hl IH Hhd]; constructor; [assumption|].
  destruct Hhd; constructor. now apply HR.
Qed.

(** C6 (as amended): the cycle sorts the records ascending by
    (start, summary), start first and summary as the tie-break, and the
    sort is stable.  The output order is independent of the order in which
    the windows were processed whenever no two records share both start and
    summary; records that share both (they differ in their end) keep the
    order in which they were gathered. *)
Theorem sort_events_by_start_then_summary (l l' : list event) :
  Sorted start_then_summary (sort_events l) /\
  sort_events l ≡ₚ l /\
  (forall k, filter (fun r => sort_key r = k) (sort_events l)
             = filter (fun r => sort_key r = k) l) /\
  (l ≡ₚ l' -> NoDup (sort_key <$> l) -> sort_events l' = sort_events l) /\
  sort_events [Records.ten_B; Records.ten_A; Records.nine_Z]
    = [Records.nine_Z; Records.ten_A; Records.ten_B].
Proof.
  split; [|split; [|split; [|split]]].
  - apply (Sorted_weaken in_order); [|apply sort_events_Sorted].
    intros a b. apply in_order_start_then_summary.
  - apply sort_events_perm.
  - intros k. apply sort_events_stable.
  - intros Hperm Hnd. symmetry. now apply sort_events_unique.
  - reflexivity.
Qed.

End SortFacts.

(** ** The parser *)

Section ParserFacts.
Import Re Parser Reference.
Variable soup : string -> result string.

Lemma parse_js_date_month (m : match_obj) (dt : datetime) :
  _parse_js_date m = Ok dt -> month dt = Str.int (group m 2) + 1.
Proof.
  unfold _parse_js_date, mk_datetime.
  destruct (valid_fields _ _ _ _ _); [|discriminate]. now intros [= <-].
Qed.

Lemma parse_js_date_range (m : match_obj) (dt : datetime) :
  _parse_js_date m = Ok dt -> 0 <= Str.int (group m 2) <= 11.
Proof.
  unfold _parse_js_date, mk_datetime.
  destruct (valid_fields _ _ _ _ _) eqn:Hv; [|discriminate]. intros _.
  unfold valid_fields in Hv. rewrite !andb_true_iff, !Z.leb_le in Hv. lia.
Qed.

(** The HTML parser is consulted on the title and the body of a block, and
    on nothing else. *)
Lemma parse_block_ext (soup' : string -> result string) (block : string) :
  soup (field_html "title" block) = soup' (field_html "title" block) ->
  soup (field_html "body" block) = soup' (field_html "body" block) ->
  parse_block soup block = parse_block soup' block.
Proof.
  intros Ht Hb. unfold parse_block, _strip_html. now rewrite Ht, Hb.
Qed.

Lemma parse_blocks_ext (soup' : string -> result string)
    (blocks : list string) (events : list event) :
  Forall (fun block => parse_block soup block = parse_block soup' block) blocks ->
  parse_blocks soup blocks events = parse_blocks soup' blocks events.
Proof.
  intros Hall. revert events.
  induction Hall as [|block rest Hb _ IH]; intros events; [reflexivity|].
  cbn [parse_blocks]. rewrite Hb.
  destruct (parse_block soup' block) as [[ev|]|e]; cbn [mbind result_bind];
    [apply IH|apply IH|reflexivity].
Qed.

(** On a blob whose blocks have neither title nor body, the parser's only
    question to the HTML parser is the empty text. *)
Lemma extract_events_no_fields (s : string) :
  forallb (fun block =>
      String.eqb (field_html "title" block) EmptyString &&
      String.eqb (field_html "body" block) EmptyString)
    (findall EVENT_BLOCK_RE s) = true ->
  extract_events soup (JStr s)
  = extract_events (fun _ => soup EmptyString) (JStr s).
Proof.
  intros Hall. unfold extract_events.
  destruct (negb (truthy (JStr s))); [reflexivity|].
  apply parse_blocks_ext. apply Forall_forall. intros block Hin.
  apply list_elem_of_In in Hin.
  apply (proj1 (forallb_forall _ _) Hall) in Hin.
  apply andb_true_iff in Hin as [Ht%String.eqb_eq Hb%String.eqb_eq].
  apply parse_block_ext; [now rewrite Ht|now rewrite Hb].
Qed.

Lemma rollover_blob_no_fields :
  forallb (fun block =>
      String.eqb (field_html "title" block) EmptyString &&
      String.eqb (field_html "body" block) EmptyString)
    (findall EVENT_BLOCK_RE Sample.rollover_blob) = true.
Proof. vm_compute. reflexivity. Qed.

(** C1 (the code raises): on a blob with a well-formed block followed by a
    block whose date has month 12, [extract_events] raises instead of
    skipping the second block and returning the first record: it raises
    [ValueError] whenever the HTML parser accepts the empty text of the
    first block's missing title and body, and what that parser raises
    otherwise. *)
Theorem extract_events_raises_on_month_12 :
  (forall text, soup EmptyString = Ok text ->
     extract_events soup (JStr Sample.rollover_blob) = Raise ValueError) /\
  (forall e, soup EmptyString = Raise e ->
     extract_events soup (JStr Sample.rollover_blob) = Raise e) /\
  length (findall EVENT_BLOCK_RE Sample.rollover_blob) = 2%nat.
Proof.
  split; [|split; [|vm_compute; reflexivity]].
  - intros text Ht.
    rewrite (extract_events_no_fields _ rollover_blob_no_fields), Ht.
    vm_compute. reflexivity.
  - intros e He.
    rewrite (extract_events_no_fields _ rollover_blob_no_fields), He.
    vm_compute. reflexivity.
Qed.

Lemma one_record_with_months_inv (r : result (list event)) (ms me : Z) :
  one_record_with_months r ms me = true ->
  exists ev, r = Ok [ev] /\ month (ev_start ev) = ms /\ month (ev_end ev) = me.
Proof.
  destruct r as [[|ev [|]]|]; try discriminate. cbn.
  intros Hok. exists ev. apply andb_true_iff in Hok as [H1 H2].
  apply Z.eqb_eq in H1, H2. auto.
Qed.

Lemma month_blocks_checked (text : string) :
  forallb (fun ms => forallb (fun me =>
      one_record_with_months
        (extract_events (fun _ => Ok text) (JStr (Sample.month_block ms me)))
        (ms + 1) (me + 1))
    (seqZ 0 12)) (seqZ 0 12) = true.
Proof. vm_compute. reflexivity. Qed.

Lemma month_blocks_no_fields :
  forallb (fun ms => forallb (fun me =>
      forallb (fun block =>
          String.eqb (field_html "title" block) EmptyString &&
          String.eqb (field_html "body" block) EmptyString)
        (findall EVENT_BLOCK_RE (Sample.month_block ms me)))
    (seqZ 0 12)) (seqZ 0 12) = true.
Proof. vm_compute. reflexivity. Qed.

Lemma forallb_seqZ (f : Z -> bool) (lo n m : Z) :
  forallb f (seqZ lo n) = true -> lo <= m < lo + n -> f m = true.
Proof.
  intros Hall Hm. apply (proj1 (forallb_forall f (seqZ lo n)) Hall).
  apply list_elem_of_In, elem_of_seqZ. lia.
Qed.

Lemma month_block_record (ms me : Z) (text : string) :
  soup EmptyString = Ok text ->
  0 <= ms <= 11 -> 0 <= me <= 11 ->
  exists ev, extract_events soup (JStr (Sample.month_block ms me)) = Ok [ev] /\
             month (ev_start ev) = ms + 1 /\ month (ev_end ev) = me + 1.
Proof.
  intros Ht Hms Hme.
  assert (Hms' : 0 <= ms < 0 + 12) by lia.
  assert (Hme' : 0 <= me < 0 + 12) by lia.
  rewrite extract_events_no_fields, Ht.
  - apply one_record_with_months_inv.
    pose proof (forallb_seqZ _ 0 12 ms (month_blocks_checked text)) as Hrow.
    cbv beta in Hrow. specialize (Hrow Hms').
    pose proof (forallb_seqZ _ 0 12 me Hrow) as Hcell.
    cbv beta in Hcell. apply Hcell. lia.
  - pose proof (forallb_seqZ _ 0 12 ms month_blocks_no_fields) as Hrow.
    cbv beta in Hrow. specialize (Hrow Hms').
    pose proof (forallb_seqZ _ 0 12 me Hrow) as Hcell.
    cbv beta in Hcell. apply Hcell. lia.
Qed.

(** C8: a block whose record is emitted carries, at its start and at its
    end, the month of the matched date token plus one, the token's month
    being between 0 and 11; and a block whose two tokens have the months
    [ms] and [me] in that range and otherwise valid fields yields one record
    with the months [ms + 1] and [me + 1]: 0 gives January (1), 11 gives
    December (12).  The sample blocks have no title and no body, whose
    empty text the HTML parser is taken to accept. *)
Theorem month_is_one_based (block : string) (sm em : match_obj) (ev : event)
    (ms me : Z) :
  search DATE_RE block 0 = Some sm ->
  search DATE_RE block (m_end sm) = Some em ->
  parse_block soup block = Ok (Some ev) ->
  0 <= ms <= 11 -> 0 <= me <= 11 ->
  (0 <= Str.int (group sm 2) <= 11 /\
   month (ev_start ev) = Str.int (group sm 2) + 1) /\
  (0 <= Str.int (group em 2) <= 11 /\
   month (ev_end ev) = Str.int (group em 2) + 1) /\
  (forall text, soup EmptyString = Ok text ->
   exists ev', extract_events soup (JStr (Sample.month_block ms me)) = Ok [ev'] /\
               month (ev_start ev') = ms + 1 /\ month (ev_end ev') = me + 1).
Proof.
  intros Hsm Hem Hblock Hms Hme.
  unfold parse_block in Hblock. rewrite Hsm in Hblock.
  destruct (_parse_js_date sm) as [start|] eqn:Hstart; [|discriminate].
  cbn [mbind result_bind] in Hblock. rewrite Hem in Hblock.
  destruct (_parse_js_date em) as [end_|] eqn:Hend; [|discriminate].
  cbn [mbind result_bind] in Hblock.
  destruct (_strip_html soup (field_html "title" block)) as [title|];
    [|discriminate].
  cbn [mbind result_bind] in Hblock.
  destruct (_strip_html soup (field_html "body" block)) as [body_|];
    [|discriminate].
  cbn [mbind result_bind] in Hblock.
  injection Hblock as <-. cbn [ev_start ev_end].
  split; [|split].
  - split; [exact (parse_js_date_range _ _ Hstart)|exact (parse_js_date_month _ _ Hstart)].
  - split; [exact (parse_js_date_range _ _ Hend)|exact (parse_js_date_month _ _ Hend)].
  - intros text Ht. now apply (month_block_record ms me text).
Qed.

End ParserFacts.

(** ** The matcher on the room pattern *)

Section RoomFacts.
Import Re Parser Room.

Lemma append_cons (c : ascii) (a b : string) :
  String c a +:+ b = String c (a +:+ b).
Proof. reflexivity. Qed.

Lemma append_nil (b : string) : EmptyString +:+ b = b.
Proof. reflexivity. Qed.

Lemma span_app (p : ascii -> bool) (s : string) :
  (span p s).1 +:+ (span p s).2 = s.
Proof.
  induction s as [|c s IH]; cbn; [reflexivity|].
  destruct (p c); cbn; [|reflexivity].
  now rewrite append_cons, IH.
Qed.

Lemma strip_prefix_app (p s r : string) :
  Str.strip_prefix p s = Some r -> s = p +:+ r.
Proof.
  revert s. induction p as [|a p IH]; intros s; cbn.
  - now intros [= ->].
  - destruct s as [|b s]; [discriminate|].
    destruct (Ascii.eqb_spec a b) as [->|]; [|discriminate].
    intros Hr. now rewrite append_cons, (IH _ Hr).
Qed.

Lemma append_length (a b : string) :
  String.length (a +:+ b) = (String.length a + String.length b)%nat.
Proof.
  induction a as [|c a IH]; [reflexivity|].
  rewrite append_cons. cbn. now rewrite IH.
Qed.

Lemma append_assoc (a b c : string) : (a +:+ b) +:+ c = a +:+ (b +:+ c).
Proof.
  induction a as [|x a IH]; [reflexivity|]. now rewrite !append_cons, IH.
Qed.

Lemma take_app (a b : string) : Str.take (String.length a) (a +:+ b) = a.
Proof.
  induction a as [|c a IH]; [now destruct b|].
  rewrite append_cons. cbn. now rewrite IH.
Qed.

Lemma consumed_app (a b : string) : Str.consumed (a +:+ b) b = a.
Proof.
  unfold Str.consumed. rewrite append_length.
  replace (String.length a + String.length b - String.length b)%nat
    with (String.length a) by lia.
  apply take_app.
Qed.

Lemma nonempty_length (s : string) :
  nonempty s = (1 <=? String.length s)%nat.
Proof. now destruct s. Qed.

(** A greedy, unbounded repetition takes the longest run when the rest of
    the pattern always matches after it, or never matches at a character of
    the class. *)
Lemma rep_greedy_span {A} (p : ascii -> bool) (k : string -> option A)
    (lo : nat) (s : string) :
  (forall s', is_Some (k s')) \/
  (forall c s', p c = true -> k (String c s') = None) ->
  rep p lo None true s k =
    if (lo <=? String.length (span p s).1)%nat then k (span p s).2 else None.
Proof.
  intros Hk. revert lo. induction s as [|c s IH]; intros [|lo]; cbn.
  - reflexivity.
  - reflexivity.
  - destruct (p c) eqn:Hc; cbn; [|reflexivity].
    rewrite (IH 0%nat). cbn. destruct Hk as [Hk|Hk].
    + now destruct (Hk (span p s).2) as [x ->].
    + rewrite (Hk c s Hc). now destruct (k (span p s).2).
  - destruct (p c) eqn:Hc; cbn; [|reflexivity]. now rewrite (IH lo).
Qed.

Lemma rmatch_cat_cons {A} (r : regex) (rs : list regex) (s : string)
    (g : groups) (k : string -> groups -> option A) :
  rmatch (cat (r :: rs)) s g k
  = rmatch r s g (fun s' g' => rmatch (cat rs) s' g' k).
Proof. reflexivity. Qed.

Lemma rmatch_cat_nil {A} (s : string) (g : groups)
    (k : string -> groups -> option A) :
  rmatch (cat []) s g k = k s g.
Proof. reflexivity. Qed.

Lemma space_not_room_char (c : ascii) :
  Chr.space c = true -> Chr.room_char c = false.
Proof.
  destruct c as [[] [] [] [] [] [] [] []]; vm_compute;
    intros; first [reflexivity | discriminate].
Qed.

Lemma labelled_match {A} (s : string) (g : groups)
    (k : string -> groups -> option A) :
  (forall s' g', is_Some (k s' g')) ->
  rmatch (cat [Lit "Sala"; plus Chr.space; plus Chr.room_char]) s g k
  = match labelled s with
    | Some (_, rest) => k rest g
    | None => None
    end.
Proof.
  intros Hk. rewrite rmatch_cat_cons. cbn [rmatch]. unfold labelled.
  destruct (Str.strip_prefix "Sala" s) as [r|]; [|reflexivity].
  rewrite rmatch_cat_cons. unfold plus. cbn [rmatch].
  rewrite rep_greedy_span.
  2:{ right. intros c s' Hc. rewrite rmatch_cat_cons. cbn [rmatch rep].
      now rewrite (space_not_room_char c Hc). }
  rewrite rmatch_cat_cons. cbn [rmatch].
  rewrite rep_greedy_span.
  2:{ left. intros s'. rewrite rmatch_cat_nil. apply Hk. }
  rewrite rmatch_cat_nil, !nonempty_length. cbn zeta.
  destruct (1 <=? String.length (span Chr.space r).1)%nat; [|reflexivity].
  cbn [andb].
  now destruct (1 <=? String.length (span Chr.room_char (span Chr.space r).2).1)%nat.
Qed.

Lemma rep_done {A} (p : ascii -> bool) (greedy : bool) (s : string)
    (k : string -> option A) :
  rep p 0 (Some 0%nat) greedy s k = k s.
Proof. now destruct s. Qed.

Lemma bare_match {A} (s : string) (g : groups)
    (k : string -> groups -> option A) :
  (forall s' g', is_Some (k s' g')) ->
  rmatch (cat [Cls Chr.upper; Lit "-"; times Chr.digit 2 3]) s g k
  = match bare s with
    | Some (_, rest) => k rest g
    | None => None
    end.
Proof.
  intros Hk. rewrite rmatch_cat_cons. cbn [rmatch]. unfold bare.
  destruct s as [|a s]; [reflexivity|].
  destruct (Chr.upper a); [|now destruct s as [|? [|? [|? ?]]]].
  rewrite rmatch_cat_cons. cbn [rmatch Str.strip_prefix].
  destruct s as [|h s]; [reflexivity|]. unfold Chr.one.
  destruct (Ascii.eqb "-" h); [|now destruct s as [|? [|? ?]]].
  rewrite rmatch_cat_cons. unfold times. cbn [rmatch].
  destruct s as [|d1 s]; [reflexivity|]. cbn [rep].
  destruct (Chr.digit d1); [|now destruct s as [|? ?]].
  destruct s as [|d2 s]; [reflexivity|]. cbn [rep].
  destruct (Chr.digit d2); [|reflexivity]. cbn [andb].
  destruct s as [|d3 s]; [reflexivity|]. cbn.
  destruct (Chr.digit d3); cbn [orelse].
  - rewrite rep_done. now destruct (Hk s g) as [x ->].
  - reflexivity.
Qed.

Lemma labelled_split (s t rest : string) :
  labelled s = Some (t, rest) -> s = t +:+ rest.
Proof.
  unfold labelled.
  destruct (Str.strip_prefix "Sala" s) as [r|] eqn:Hr; [|discriminate].
  destruct (_ && _); [|discriminate]. intros [= <- <-].
  rewrite (strip_prefix_app _ _ _ Hr), !append_assoc, !span_app. reflexivity.
Qed.

Lemma bare_split (s t rest : string) :
  bare s = Some (t, rest) -> s = t +:+ rest.
Proof.
  unfold bare. destruct s as [|a [|h [|d1 [|d2 s]]]]; try discriminate.
  destruct (_ && _); [|discriminate].
  destruct s as [|d3 s]; [now intros [= <- <-]|].
  destruct (Chr.digit d3); now intros [= <- <-].
Qed.

Lemma at_start_split (s t rest : string) :
  at_start s = Some (t, rest) -> s = t +:+ rest.
Proof.
  unfold at_start. destruct (labelled s) as [[t' rest']|] eqn:Hl; cbn.
  - intros [= <- <-]. now apply labelled_split.
  - apply bare_split.
Qed.

(** The room pattern at the start of a text is [at_start]. *)
Lemma room_match {A} (s : string) (g : groups)
    (k : string -> groups -> option A) :
  (forall s' g', is_Some (k s' g')) ->
  rmatch ROOM_RE s g k
  = match at_start s with
    | Some (_, rest) => k rest (<[1%nat := Str.consumed s rest]> g)
    | None => None
    end.
Proof.
  intros Hk. unfold ROOM_RE. cbn [rmatch].
  rewrite labelled_match, bare_match by (intros; apply Hk).
  unfold at_start. destruct (labelled s) as [[t rest]|]; cbn [orelse].
  - now destruct (Hk rest (<[1%nat := Str.consumed s rest]> g)) as [x ->].
  - reflexivity.
Qed.

Lemma match_at_room (s : string) (pos : nat) :
  m_group0 <$> match_at ROOM_RE s pos = fst <$> at_start s.
Proof.
  unfold match_at. rewrite room_match by (intros; eexists; reflexivity).
  destruct (at_start s) as [[t rest]|] eqn:Hs; [|reflexivity]. cbn.
  now rewrite (at_start_split _ _ _ Hs), consumed_app.
Qed.

Lemma scan_room (s : string) (pos : nat) :
  match scan ROOM_RE s pos with
  | Some m => m_group0 m
  | None => EmptyString
  end = first_room s.
Proof.
  revert pos. induction s as [|c s IH]; intros pos; cbn [scan first_room].
  - pose proof (match_at_room EmptyString pos) as Hnil.
    destruct (match_at ROOM_RE "" pos) as [m|];
      destruct (at_start "") as [[t rest]|]; cbn in Hnil; congruence.
  - pose proof (match_at_room (String c s) pos) as Hcons.
    destruct (match_at ROOM_RE (String c s) pos) as [m|];
      destruct (at_start (String c s)) as [[t rest]|]; cbn in Hcons;
      try congruence. apply IH.
Qed.

Lemma location_of_first_room (title : string) :
  location_of title = first_room title.
Proof. unfold location_of, search. apply scan_room. Qed.

(** *** Tokens *)














End RoomFacts.

(** ** Concurrent requests *)

Section CountFacts.
Import Main Reference Driver.
Context {E : Env}.

Lemma post_json_counted (url : string) (payload : json) (w : World)
    (n : nat) :
  @post_json (counted E) url payload (w, n)
  = ((post_json url payload w).1, ((post_json url payload w).2, S n)).
Proof.
  unfold post_json. cbn. now destruct (post url payload w) as [r w1].
Qed.

Lemma get_code_week_counted (dt : aware) (w : World) (n : nat) :
  @get_code_week_for_date (counted E) dt (w, n)
  = ((get_code_week_for_date dt w).1, ((get_code_week_for_date dt w).2, S n)).
Proof.
  unfold get_code_week_for_date.
  change (@GET_CODE_WEEK_URL (counted E)) with (@GET_CODE_WEEK_URL E).
  change (@strftime (counted E)) with (@strftime E).
  rewrite post_json_counted.
  now destruct (post_json _ _ w) as [r w1].
Qed.

Lemma get_week_events_counted (code_week : json) (w : World) (n : nat) :
  @get_week_events (counted E) code_week (w, n)
  = ((get_week_events code_week w).1, ((get_week_events code_week w).2, S n)).
Proof.
  unfold get_week_events.
  change (@MUDAR_SEMANA_URL (counted E)) with (@MUDAR_SEMANA_URL E).
  change (@week_payload (counted E)) with (@week_payload E).
  change (@soup_get_text (counted E)) with (@soup_get_text E).
  rewrite post_json_counted.
  now destruct (post_json _ _ w) as [r w1].
Qed.

Lemma fetch_window_counted (dt : aware) (w : World) :
  exists k : nat,
    (1 <= k <= 2)%nat /\
    forall n : nat,
      @fetch_window (counted E) dt (w, n)
      = ((fetch_window dt w).1, ((fetch_window dt w).2, (n + k)%nat)).
Proof.
  unfold fetch_window.
  destruct (get_code_week_for_date dt w) as [[code_week|e] w1] eqn:Hcode.
  - destruct (negb (truthy code_week)) eqn:Ht.
    + exists 1%nat. split; [lia|]. intros n.
      rewrite get_code_week_counted, Hcode. cbn [fst snd]. rewrite Ht.
      now rewrite Nat.add_1_r.
    + exists 2%nat. split; [lia|]. intros n.
      rewrite get_code_week_counted, Hcode. cbn [fst snd]. rewrite Ht.
      rewrite get_week_events_counted.
      replace (n + 2)%nat with (S (S n)) by lia.
      now destruct (get_week_events code_week w1) as [[evs|e] w2].
  - exists 1%nat. split; [lia|]. intros n.
    rewrite get_code_week_counted, Hcode. cbn [fst snd].
    now rewrite Nat.add_1_r.
Qed.

Lemma for_weeks_counted (weeks : list aware) (events : list event)
    (seen : gset (datetime * datetime * string)) (w : World) :
  exists k : nat,
    (length weeks <= k <= 2 * length weeks)%nat /\
    forall n : nat,
      @for_weeks (counted E) weeks events seen (w, n)
      = ((for_weeks weeks events seen w).1,
         ((for_weeks weeks events seen w).2, (n + k)%nat)).
Proof.
  revert events seen w.
  induction weeks as [|dt rest IH]; intros events seen w; cbn [for_weeks].
  - exists 0%nat. split; [cbn; lia|]. intros n. now rewrite Nat.add_0_r.
  - destruct (fetch_window_counted dt w) as (k1 & Hk1 & Hwin).
    destruct (fetch_window dt w) as [[week_events|] w1]; cbn [fst snd] in Hwin.
    + destruct (merge_week week_events events seen) as [events' seen'] eqn:Hm.
      destruct (IH events' seen' w1) as (k & Hk & Hrest).
      exists (k1 + k)%nat. split; [cbn [length]; lia|]. intros n.
      rewrite Hwin. cbv beta iota. rewrite Hm. cbv beta iota.
      now rewrite Hrest, Nat.add_assoc.
    + destruct (IH events seen w1) as (k & Hk & Hrest).
      exists (k1 + k)%nat. split; [cbn [length]; lia|]. intros n.
      rewrite Hwin. cbv beta iota.
      now rewrite Hrest, Nat.add_assoc.
Qed.

Lemma gather_counted (w : World) :
  exists k : nat,
    (forall weeks, probe_instants (now w).1 = Ok weeks ->
       (length weeks <= k <= 2 * length weeks)%nat) /\
    (forall e, probe_instants (now w).1 = Raise e -> k = 0%nat) /\
    forall n : nat,
      @gather (counted E) (w, n) = ((gather w).1, ((gather w).2, (n + k)%nat)).
Proof.
  unfold gather, cycle_records.
  change (@build_ics (counted E)) with (@build_ics E).
  change (@probe_instants (counted E)) with (@probe_instants E).
  cbn [now counted fst snd].
  destruct (now w) as [today w1]. cbn [fst snd].
  destruct (probe_instants today) as [weeks|e].
  - destruct (for_weeks_counted weeks [] ∅ w1) as (k & Hk & Hloop).
    exists k. split; [now intros weeks' [= <-]|]. split; [discriminate|].
    intros n. rewrite Hloop.
    now destruct (for_weeks weeks [] ∅ w1) as [[events seen] w2].
  - exists 0%nat. split; [discriminate|]. split; [reflexivity|].
    intros n. now rewrite Nat.add_0_r.
Qed.

(** The requests of a cycle do not depend on the count so far. *)
Lemma gather_requests (w : World) (n : nat) :
  @gather (counted E) (w, n)
  = ((gather w).1, ((gather w).2, (n + cycle_requests E w)%nat)).
Proof.
  destruct (gather_counted w) as (k & _ & _ & Hk).
  unfold cycle_requests. now rewrite (Hk 0%nat), Hk.
Qed.

Lemma cycle_requests_bounds (w : World) (weeks : list aware) :
  probe_instants (now w).1 = Ok weeks ->
  (length weeks <= cycle_requests E w <= 2 * length weeks)%nat.
Proof.
  destruct (gather_counted w) as (k & Hb & _ & Hk).
  unfold cycle_requests. rewrite (Hk 0%nat). cbn [snd]. rewrite Nat.add_0_l.
  apply Hb.
Qed.

Lemma cycle_requests_none (w : World) (e : exn) :
  probe_instants (now w).1 = Raise e -> cycle_requests E w = 0%nat.
Proof.
  destruct (gather_counted w) as (k & _ & Hz & Hk).
  unfold cycle_requests. rewrite (Hk 0%nat). cbn [snd]. rewrite Nat.add_0_l.
  apply Hz.
Qed.

Lemma refresh_cache_counted (st : cache) (w : World) (n : nat) :
  @refresh_cache (counted E) st (w, n)
  = ((refresh_cache st w).1,
     ((refresh_cache st w).2, (n + cycle_requests E w)%nat)).
Proof.
  unfold refresh_cache. rewrite gather_requests.
  change (@set_expires (counted E)) with (@set_expires E).
  destruct (gather w) as [[ics|e] w2]; cbn [fst snd]; [|reflexivity].
  cbn [now counted fst snd]. destruct (now w2) as [t w3].
  now destruct (set_expires (set_ics st ics) t).
Qed.

(** What [calendar] returns when it runs [refresh_cache]. *)
Lemma calendar_refreshes (st : cache) (w : World) :
  needs_refresh st (now w).1 = Ok true ->
  calendar st w
  = match refresh_cache st (now w).2 with
    | (Ok _, st', w2) => (Ok (respond st'), st', w2)
    | (Raise e, st', w2) => (Raise e, st', w2)
    end /\
  forall n : nat,
    @calendar (counted E) st (w, n)
    = ((calendar st w).1,
       ((calendar st w).2, (n + cycle_requests E (now w).2)%nat)).
Proof.
  intros Hguard. unfold calendar, refresh_then_respond.
  cbn [now counted fst snd]. destruct (now w) as [t w1].
  cbn [fst snd] in *. rewrite Hguard. split.
  - now destruct (refresh_cache st w1) as [[[u|e] st'] w2].
  - intros n. rewrite refresh_cache_counted.
    now destruct (refresh_cache st w1) as [[[u|e] st'] w2].
Qed.

(** What [calendar] returns when it does not. *)
Lemma calendar_answers (st : cache) (w : World) (r : result http_response) :
  match needs_refresh st (now w).1 with
  | Ok true => False
  | Ok false => r = Ok (respond st)
  | Raise e => r = Raise e
  end ->
  calendar st w = (r, st, (now w).2) /\
  forall n : nat, @calendar (counted E) st (w, n) = (r, st, ((now w).2, n)).
Proof.
  unfold calendar. cbn [now counted fst snd]. destruct (now w) as [t w1].
  cbn [fst snd]. destruct (needs_refresh st t) as [[|]|e]; [contradiction| |];
    intros ->; split; reflexivity.
Qed.

(** C7: what [calendar] does on every slot.  Without bytes, or with bytes
    and an expiry that the clock has reached (the expiry instant itself
    included), it runs [refresh_cache] before answering: the answer is
    built from the slot that leaves, and the cycle sends its requests
    upstream, at least one and at most two for each window.  With bytes
    and an expiry still ahead it answers with the cached bytes, changes
    nothing and sends nothing.  With bytes and the initial naive
    [datetime.min] in the expiry slot it raises [TypeError] from the guard,
    neither refreshing nor answering. *)
Theorem calendar_refresh_guard (st : cache) (w : World) :
  let t := (now w).1 in
  let w1 := (now w).2 in
  let refreshed :=
    match refresh_cache st w1 with
    | (Ok _, st', w2) => (Ok (respond st'), st', w2)
    | (Raise e, st', w2) => (Raise e, st', w2)
    end in
  let cycle_runs :=
    calendar st w = refreshed /\
    (forall n : nat,
       @calendar (counted E) st (w, n)
       = (refreshed.1, (refreshed.2, (n + cycle_requests E w1)%nat))) /\
    (forall weeks, probe_instants (now w1).1 = Ok weeks ->
       (length weeks <= cycle_requests E w1 <= 2 * length weeks)%nat) in
  let nothing_sent := fun r : result http_response =>
    calendar st w = (r, st, w1) /\
    (forall n : nat, @calendar (counted E) st (w, n) = (r, st, (w1, n))) in
  (_cache_ics st = None \/ _cache_ics st = Some [] -> cycle_runs) /\
  (forall b ics expires,
     _cache_ics st = Some (b :: ics) -> _cache_expires st = At expires ->
     (instant expires <= instant t -> cycle_runs) /\
     (instant t < instant expires ->
      nothing_sent (Ok (respond st)) /\ content (respond st) = b :: ics)) /\
  (forall b ics,
     _cache_ics st = Some (b :: ics) -> _cache_expires st = NaiveMin ->
     nothing_sent (Raise TypeError)).
Proof.
  intros t w1 refreshed cycle_runs nothing_sent.
  assert (Hrun : needs_refresh st t = Ok true -> cycle_runs).
  { intros Hguard. destruct (calendar_refreshes st w Hguard) as [Hc Hn].
    split; [exact Hc|]. split; [|apply cycle_requests_bounds].
    intros n. rewrite Hn. now rewrite Hc. }
  split; [|split].
  - intros Habs. apply Hrun. unfold needs_refresh.
    now destruct Habs as [-> | ->].
  - intros b ics expires Hics Hexp. split.
    + intros Hle. apply Hrun. unfold needs_refresh. rewrite Hics, Hexp.
      f_equal. now apply Z.leb_le.
    + intros Hlt. split.
      * apply calendar_answers. fold t. unfold needs_refresh.
        rewrite Hics, Hexp. apply Z.leb_gt in Hlt. now rewrite Hlt.
      * unfold respond. now rewrite Hics.
  - intros b ics Hics Hexp. apply calendar_answers. fold t.
    unfold needs_refresh. now rewrite Hics, Hexp.
Qed.

End CountFacts.

(** ** Concurrent requests *)

Section ThreadFacts.
Import Main Reference Driver.
Context `{Env}.

Lemma exec_steps (schedule : list nat) (c : config) :
  rtc step c (exec schedule c).
Proof.
  revert c. induction schedule as [|i rest IH]; intros c; cbn [exec];
    [reflexivity|].
  destruct (sched i c) as [c'|] eqn:Hs; cbn [default]; [|apply IH].
  eapply rtc_l; [exists i; exact Hs|apply IH].
Qed.

Lemma step_middle (pre post_ : list thread) (th th' : thread)
    (st st' : cache) (w w' : World) :
  thread_step th st w = Some (th', st', w') ->
  step {| shared := st; pool := pre ++ th :: post_; world := w |}
       {| shared := st'; pool := pre ++ th' :: post_; world := w' |}.
Proof.
  intros Hth. exists (length pre). unfold sched. cbn [shared pool world].
  rewrite list_lookup_middle by reflexivity. cbn. rewrite Hth. cbn.
  rewrite insert_app_r_alt by lia. now rewrite Nat.sub_diag.
Qed.

(** A request that finds the cache absent or expired enters
    [refresh_cache], whatever the other requests are doing. *)
Lemma enter_refresh (pre post_ : list thread) (st : cache) (w : World) :
  needs_refresh st (now w).1 = Ok true ->
  rtc step {| shared := st; pool := pre ++ AtEntry :: post_; world := w |}
           {| shared := st; pool := pre ++ InRefresh :: post_; world := (now w).2 |}.
Proof.
  intros Hguard.
  eapply rtc_l; [|apply rtc_once].
  - apply (step_middle _ _ AtEntry (AtGuard (now w).1) st st w (now w).2).
    cbn. now destruct (now w).
  - apply step_middle. cbn. now rewrite Hguard.
Qed.

Lemma in_flight_all (n : nat) (st : cache) (w : World) :
  in_flight {| shared := st; pool := replicate n InRefresh; world := w |} = n.
Proof.
  unfold in_flight. cbn [pool]. induction n as [|n IH]; [reflexivity|].
  rewrite replicate_S, filter_cons_True by reflexivity.
  cbn [length]. now rewrite IH.
Qed.

(** Requests that each find the cache absent or expired at their own
    clock reading all enter [refresh_cache]. *)
Lemma all_enter_refresh (b a : nat) (st : cache) (w : World) :
  (forall i, (i < b)%nat ->
     needs_refresh st (now (after_readings i w)).1 = Ok true) ->
  rtc step {| shared := st;
              pool := replicate a InRefresh ++ replicate b AtEntry;
              world := w |}
           {| shared := st; pool := replicate (a + b) InRefresh;
              world := after_readings b w |}.
Proof.
  revert a w. induction b as [|b IH]; intros a w Hguard.
  - rewrite Nat.add_0_r, app_nil_r. reflexivity.
  - etrans; [apply (enter_refresh _ _ _ _ (Hguard 0%nat ltac:(lia)))|].
    specialize (IH (S a) (now w).2).
    rewrite replicate_S_end, <- app_assoc in IH. cbn [app] in IH.
    replace (a + S b)%nat with (S a + b)%nat by lia.
    apply IH. intros i Hi. apply (Hguard (S i)). lia.
Qed.

(** Requests inside [refresh_cache] each run their own cycle. *)
Lemma all_gather (b : nat) (done : list thread) (st : cache) (w : World) :
  rtc step {| shared := st; pool := done ++ replicate b InRefresh; world := w |}
           {| shared := st;
              pool := done ++ (after_gather <$> (cycles b w).1);
              world := (cycles b w).2 |}.
Proof.
  revert done w. induction b as [|b IH]; intros done w; [reflexivity|].
  cbn [replicate cycles].
  destruct (gather w) as [r w1] eqn:Hg.
  specialize (IH (done ++ [after_gather r]) w1).
  destruct (cycles b w1) as [rs w2]. cbn [fst snd fmap list_fmap] in *.
  rewrite <- !app_assoc in IH. cbn [app] in IH.
  eapply rtc_l; [|exact IH].
  apply step_middle. cbn [thread_step]. rewrite Hg. now destruct r.
Qed.

(** One request alone, run to its end, is [calendar]. *)
Lemma solo_request (st : cache) (w : World) :
  let c := exec (replicate 6 0%nat) (start 1 st w) in
  pool c = [match (calendar st w).1.1 with
            | Ok r => Done r
            | Raise e => Failed e
            end] /\
  shared c = (calendar st w).1.2 /\
  world c = (calendar st w).2.
Proof.
  unfold calendar, refresh_then_respond, refresh_cache, start.
  cbn [replicate exec]. unfold sched. cbn.
  destruct (now w) as [t w1]. cbn.
  destruct (needs_refresh st t) as [[|]|e]; cbn.
  - destruct (gather w1) as [[ics|e] w2]; cbn.
    + destruct (now w2) as [t2 w3]. cbn.
      destruct (set_expires (set_ics st ics) t2) as [st2|e]; cbn; auto.
    + auto.
  - auto.
  - auto.
Qed.

End ThreadFacts.

Section OverlapFacts.
Import Main Reference Driver.
Context {E : Env}.

Lemma after_readings_counted (n : nat) (w : World) (k : nat) :
  @after_readings (counted E) n (w, k) = (after_readings n w, k).
Proof.
  revert w. induction n as [|n IH]; intros w; [reflexivity|].
  cbn [after_readings now counted fst snd].
  destruct (now w) as [t w1]. apply IH.
Qed.

Lemma now_counted (w : World) (k : nat) :
  (@now (counted E) (w, k)).1 = (now w).1.
Proof. cbn. now destruct (now w). Qed.

Lemma cycles_counted (n : nat) (w : World) (k : nat) :
  @cycles (counted E) n (w, k)
  = ((cycles n w).1, ((cycles n w).2, (k + cycles_requests E n w)%nat)).
Proof.
  revert w k. induction n as [|n IH]; intros w k.
  - cbn. now rewrite Nat.add_0_r.
  - cbn [cycles cycles_requests]. rewrite gather_requests.
    destruct (gather w) as [r w1]. cbn [fst snd]. rewrite IH.
    destruct (cycles n w1) as [rs w2]. cbn [fst snd].
    now rewrite Nat.add_assoc.
Qed.

(** C2 (as amended): refresh execution is not serialized.  Every request
    that finds the cache absent or expired at its own clock reading runs
    [refresh_cache] itself: [n] such requests that all evaluate the guard
    before any of them publishes are all inside [refresh_cache] at the
    same time, and when each has run its cycle, [n] cycles have been run
    and the upstream has received the requests of all [n] of them, each
    cycle sending at least one and at most two for each of its windows. *)
Theorem refresh_runs_once_per_request (n : nat) (st : cache) (w : World)
    (sent : nat) :
  (forall i, (i < n)%nat ->
     needs_refresh st (now (after_readings i w)).1 = Ok true) ->
  exists c1 c2 : @config (counted E),
    rtc step (@start (counted E) n st (w, sent)) c1 /\
    shared c1 = st /\
    pool c1 = replicate n InRefresh /\
    @in_flight (counted E) c1 = n /\
    world c1 = (after_readings n w, sent) /\
    rtc step c1 c2 /\
    shared c2 = st /\
    pool c2 = after_gather <$> (cycles n (after_readings n w)).1 /\
    world c2 = ((cycles n (after_readings n w)).2,
                (sent + cycles_requests E n (after_readings n w))%nat) /\
    (forall w' weeks, probe_instants (now w').1 = Ok weeks ->
       (length weeks <= cycle_requests E w' <= 2 * length weeks)%nat).
Proof.
  intros Hguard.
  exists (@Build_config (counted E) st (replicate n InRefresh)
            (after_readings n w, sent)).
  exists (@Build_config (counted E) st
            (after_gather <$> (cycles n (after_readings n w)).1)
            ((cycles n (after_readings n w)).2,
             (sent + cycles_requests E n (after_readings n w))%nat)).
  split; [|split; [reflexivity|split; [reflexivity|split;
    [apply (@in_flight_all (counted E))|split; [reflexivity|split;
    [|split; [reflexivity|split; [reflexivity|split;
    [reflexivity|apply cycle_requests_bounds]]]]]]]]].
  - pose proof (@all_enter_refresh (counted E) n 0 st (w, sent)) as Hrun.
    rewrite after_readings_counted in Hrun. apply Hrun.
    intros i Hi. rewrite after_readings_counted, now_counted.
    now apply Hguard.
  - pose proof (@all_gather (counted E) n [] st (after_readings n w, sent))
      as Hrun.
    rewrite cycles_counted in Hrun. exact Hrun.
Qed.

End OverlapFacts.

(** * The properties on sample inputs *)

Section Samples.
Import Main Reference Driver Upstream.

(** A cycle of the sample deployment with its portal reachable: seven
    windows, two requests each, and the one class of the week kept once. *)
Example online_request :
  @calendar online initial w0
  = (Ok {| content := [Byte.x42; Byte.x45; Byte.x2e];
           media_type := "text/calendar; charset=utf-8" |},
     {| _cache_ics := Some [Byte.x42; Byte.x45; Byte.x2e];
        _cache_expires := At {| instant := 900001016; utcoffset := 3600000000 |} |},
     {| clock := 1017; posts := 14 |}).
Proof. vm_compute. reflexivity. Qed.

(** A request on the slot between the two assignments of the first
    refresh: bytes, and the initial naive expiry. *)
Example half_published_request :
  @calendar online
    {| _cache_ics := Some [Byte.x42; Byte.x2e]; _cache_expires := NaiveMin |} w0
  = (Raise TypeError,
     {| _cache_ics := Some [Byte.x42; Byte.x2e]; _cache_expires := NaiveMin |},
     {| clock := 1001; posts := 0 |}).
Proof. vm_compute. reflexivity. Qed.

(** C2 (counterexample): two requests against the empty cache of a process
    whose portal is unreachable.  After each has read the clock and
    evaluated the guard, both are inside [refresh_cache]; when both have
    finished, fourteen requests were sent upstream, the seven of one cycle
    twice. *)
Lemma two_requests_two_cycles :
  ~ @serialized offline 2 initial w0 /\
  posts (@world offline
           (@exec offline [0; 1; 0; 1; 0; 1; 0; 1; 0; 1; 0; 1]%nat
              (@start offline 2 initial w0))) = 14%nat /\
  posts (@calendar offline initial w0).2 = 7%nat.
Proof.
  split; [|split; vm_compute; reflexivity].
  intros Hser.
  specialize (Hser (@exec offline [0; 1; 0; 1]%nat (@start offline 2 initial w0))
                   (@exec_steps offline _ _)).
  vm_compute in Hser. lia.
Qed.

(** Three requests on a populated slot whose expiry, instant 5000, the
    clock has reached: 21 requests go upstream, the 7 of one cycle three
    times. *)
Lemma three_requests_in_flight :
  (forall i, (i < 3)%nat ->
     needs_refresh populated
       (@now offline
          (@after_readings offline i {| clock := 5000; posts := 0 |})).1
     = Ok true) /\
  @cycles_requests offline 3
    (@after_readings offline 3 {| clock := 5000; posts := 0 |}) = 21%nat /\
  exists c1 c2 : @config (counted offline),
    rtc (@step (counted offline))
      (@start (counted offline) 3 populated
         ({| clock := 5000; posts := 0 |}, 0%nat)) c1 /\
    shared c1 = populated /\
    pool c1 = replicate 3 InRefresh /\
    @in_flight (counted offline) c1 = 3%nat /\
    world c1
    = (@after_readings offline 3 {| clock := 5000; posts := 0 |}, 0%nat) /\
    rtc (@step (counted offline)) c1 c2 /\
    shared c2 = populated /\
    pool c2
    = after_gather
      <$> (@cycles offline 3
             (@after_readings offline 3 {| clock := 5000; posts := 0 |})).1 /\
    world c2
    = ((@cycles offline 3
          (@after_readings offline 3 {| clock := 5000; posts := 0 |})).2,
       (0 + @cycles_requests offline 3
              (@after_readings offline 3 {| clock := 5000; posts := 0 |}))%nat) /\
    (forall w' weeks, @probe_instants offline (@now offline w').1 = Ok weeks ->
       (length weeks <= @cycle_requests offline w' <= 2 * length weeks)%nat).
Proof.
  assert (Hguard : forall i, (i < 3)%nat ->
     needs_refresh populated
       (@now offline
          (@after_readings offline i {| clock := 5000; posts := 0 |})).1
     = Ok true).
  { intros i Hi. destruct i as [|[|[|i]]]; [reflexivity..|lia]. }
  split; [exact Hguard|]. split; [vm_compute; reflexivity|].
  exact (@refresh_runs_once_per_request offline 3 populated
           {| clock := 5000; posts := 0 |} 0%nat Hguard).
Defined.

Lemma offline_cycle_publishes :
  exists weeks expires,
    @probe_instants offline (@now offline w0).1 = Ok weeks /\
    @all_windows_fail offline weeks (@now offline w0).2 /\
    @to_ical offline {| cal_props := calendar_header; cal_events := [] |}
      = Ok [Byte.x42; Byte.x2e] /\
    shift (@now offline (@cycle_records offline w0).2).1
      (@REFRESH_MIN offline * MINUTE) = Ok expires /\
    exists w2,
      @cycle_records offline w0 = (Ok [], w2) /\
      @build_ics offline [] = Ok [Byte.x42; Byte.x2e] /\
      @refresh_cache offline populated w0 =
        (Ok tt,
         {| _cache_ics := Some [Byte.x42; Byte.x2e];
            _cache_expires := At expires |},
         (@now offline w2).2) /\
      instant expires
      = instant (@now offline w2).1 + @REFRESH_MIN offline * MINUTE.
Proof.
  destruct (@probe_instants offline (@now offline w0).1) as [weeks|e]
    eqn:Hweeks; [|vm_compute in Hweeks; discriminate].
  destruct (shift (@now offline (@cycle_records offline w0).2).1
              (@REFRESH_MIN offline * MINUTE)) as [expires|e]
    eqn:Hexp; [|vm_compute in Hexp; discriminate].
  assert (Hall : @all_windows_fail offline weeks (@now offline w0).2).
  { vm_compute in Hweeks. injection Hweeks as <-. vm_compute. repeat split. }
  assert (Hical : @to_ical offline
                    {| cal_props := calendar_header; cal_events := [] |}
                  = Ok [Byte.x42; Byte.x2e]) by reflexivity.
  exists weeks, expires.
  split; [reflexivity|]. split; [exact Hall|]. split; [exact Hical|].
  split; [reflexivity|].
  exact (@refresh_cache_all_windows_fail offline populated w0 weeks
           [Byte.x42; Byte.x2e] expires Hweeks Hall Hical Hexp).
Defined.

Lemma failed_build_keeps_cache :
  exists events,
    (@cycle_records broken_emitter w0).1 = Ok events /\
    @build_ics broken_emitter events = Raise EncodingError /\
    @refresh_cache broken_emitter populated w0
      = (Raise EncodingError, populated, (@cycle_records broken_emitter w0).2) /\
    _cache_ics (@refresh_cache broken_emitter populated w0).1.2
      = _cache_ics populated /\
    _cache_expires (@refresh_cache broken_emitter populated w0).1.2
      = _cache_expires populated.
Proof.
  destruct (@cycle_records broken_emitter w0).1 as [events|e] eqn:Hrec;
    [|vm_compute in Hrec; discriminate].
  assert (Hbuild : @build_ics broken_emitter events = Raise EncodingError).
  { vm_compute in Hrec. injection Hrec as <-. vm_compute. reflexivity. }
  exists events. split; [reflexivity|]. split; [exact Hbuild|].
  exact (@refresh_cache_build_failure broken_emitter populated w0 events
           EncodingError Hrec Hbuild).
Defined.

Lemma empty_answer_no_records :
  @post empty_answers (@MUDAR_SEMANA_URL empty_answers)
      (@week_payload empty_answers (JStr "2025-38")) w0
    = (Some {| status_ok := true; body := Some (JObj []) |}, sent w0) /\
  @get_week_events empty_answers (JStr "2025-38") w0 = (Ok [], sent w0).
Proof.
  assert (Hpost : @post empty_answers (@MUDAR_SEMANA_URL empty_answers)
                    (@week_payload empty_answers (JStr "2025-38")) w0
                  = (Some {| status_ok := true; body := Some (JObj []) |}, sent w0)).
  { reflexivity. }
  split; [exact Hpost|].
  apply (@get_week_events_without_blob empty_answers (JStr "2025-38") w0 [] (sent w0) Hpost).
  left. reflexivity.
Defined.

End Samples.

Section MoreSamples.
Import Main Reference Records.

(** C6 (counterexample): two classes with the same start and summary and
    different ends are distinct for the deduplication; sorted, they stay
    in the order in which they were gathered, so a different processing
    order of the windows gives a different output. *)
Lemma sort_follows_processing_order_on_ties :
  ~ (forall l1 l2 : list event,
       NoDup (dedup_key <$> l1) -> l1 ≡ₚ l2 ->
       sort_events l1 = sort_events l2).
Proof.
  intros Hc. specialize (Hc [short_A; long_A] [long_A; short_A]).
  assert (Hnd : NoDup (dedup_key <$> [short_A; long_A])).
  { repeat constructor; [|apply not_elem_of_nil].
    intros Hin. apply list_elem_of_singleton in Hin. discriminate. }
  specialize (Hc Hnd (Permutation_swap _ _ _)).
  vm_compute in Hc. discriminate.
Qed.

Lemma three_classes_sorted :
  [ten_B; ten_A; nine_Z] ≡ₚ [nine_Z; ten_B; ten_A] /\
  NoDup (sort_key <$> [ten_B; ten_A; nine_Z]) /\
  sort_events [nine_Z; ten_B; ten_A] = sort_events [ten_B; ten_A; nine_Z].
Proof.
  assert (Hperm : [ten_B; ten_A; nine_Z] ≡ₚ [nine_Z; ten_B; ten_A]).
  { symmetry. apply (Permutation_cons_append [ten_B; ten_A] nine_Z). }
  assert (Hnd : NoDup (sort_key <$> [ten_B; ten_A; nine_Z])).
  { apply (bool_decide_unpack _). vm_compute. reflexivity. }
  split; [exact Hperm|]. split; [exact Hnd|].
  exact (proj1 (proj2 (proj2 (proj2
    (sort_events_by_start_then_summary [ten_B; ten_A; nine_Z]
       [nine_Z; ten_B; ten_A])))) Hperm Hnd).
Defined.

End MoreSamples.

Section ParserSamples.
Import Re Parser Room Sample.

Lemma january_and_december :
  search DATE_RE jan_dec_block 0 = Some start_token /\
  search DATE_RE jan_dec_block (m_end start_token) = Some end_token /\
  parse_block (fun html => Ok html) jan_dec_block = Ok (Some jan_dec_record) /\
  (0 <= Str.int (group start_token 2) <= 11 /\
   month (ev_start jan_dec_record) = Str.int (group start_token 2) + 1) /\
  (0 <= Str.int (group end_token 2) <= 11 /\
   month (ev_end jan_dec_record) = Str.int (group end_token 2) + 1) /\
  (exists ev', extract_events (fun html => Ok html) (JStr (month_block 0 11))
                 = Ok [ev'] /\
               month (ev_start ev') = 0 + 1 /\ month (ev_end ev') = 11 + 1).
Proof.
  assert (Hs : search DATE_RE jan_dec_block 0 = Some start_token).
  { vm_compute. reflexivity. }
  assert (He : search DATE_RE jan_dec_block (m_end start_token) = Some end_token).
  { vm_compute. reflexivity. }
  assert (Hb : parse_block (fun html => Ok html) jan_dec_block
               = Ok (Some jan_dec_record)).
  { vm_compute. reflexivity. }
  split; [exact Hs|]. split; [exact He|]. split; [exact Hb|].
  destruct (month_is_one_based (fun html => Ok html) jan_dec_block start_token
              end_token jan_dec_record 0 11 Hs He Hb) as (H1 & H2 & H3);
    [lia|lia|].
  split; [exact H1|]. split; [exact H2|].
  exact (H3 EmptyString eq_refl).
Defined.


End ParserSamples.

(** * Further properties *)

(** ** The records of the parser *)

Section RecordFacts.
Import Re Parser Room Text.
Variable soup : string -> result string.

Lemma parse_block_inv (block : string) (ev : event) :
  parse_block soup block = Ok (Some ev) ->
  exists sm em title_txt body_txt,
    search DATE_RE block 0 = Some sm /\
    search DATE_RE block (m_end sm) = Some em /\
    _parse_js_date sm = Ok (ev_start ev) /\
    _parse_js_date em = Ok (ev_end ev) /\
    _strip_html soup (field_html "title" block) = Ok title_txt /\
    _strip_html soup (field_html "body" block) = Ok body_txt /\
    ev_summary ev =
      (if nonempty title_txt then Str.take 200 title_txt else "Class") /\
    ev_location ev = location_of title_txt /\
    ev_description ev =
      (if nonempty body_txt then Str.take 2000 body_txt else EmptyString).
Proof.
  unfold parse_block.
  destruct (search DATE_RE block 0) as [sm|] eqn:Hsm; [|discriminate].
  destruct (_parse_js_date sm) as [start|] eqn:Hstart; [|discriminate].
  cbn [mbind result_bind].
  destruct (search DATE_RE block (m_end sm)) as [em|] eqn:Hem; [|discriminate].
  destruct (_parse_js_date em) as [end_|] eqn:Hend; [|discriminate].
  cbn [mbind result_bind].
  destruct (_strip_html soup (field_html "title" block)) as [title_txt|]
    eqn:Ht; [|discriminate].
  cbn [mbind result_bind].
  destruct (_strip_html soup (field_html "body" block)) as [body_txt|]
    eqn:Hb; [|discriminate].
  cbn [mbind result_bind].
  intros [= <-]. exists sm, em, title_txt, body_txt. cbn.
  repeat split; assumption || reflexivity.
Qed.

Lemma strip_html_raises (html : string) (e : exn) :
  _strip_html soup html = Raise e -> soup html = Raise e.
Proof.
  unfold _strip_html. destruct (soup html) as [text|e']; [discriminate|].
  now intros [= ->].
Qed.

Lemma parse_block_raises (block : string) (e : exn) :
  parse_block soup block = Raise e ->
  e = ValueError \/
  soup (field_html "title" block) = Raise e \/
  soup (field_html "body" block) = Raise e.
Proof.
  unfold parse_block, _parse_js_date, mk_datetime.
  destruct (search DATE_RE block 0) as [sm|]; [|discriminate].
  destruct (valid_fields _ _ _ _ _); cbn [mbind result_bind];
    [|left; congruence].
  destruct (search DATE_RE block (m_end sm)) as [em|]; [|discriminate].
  destruct (valid_fields _ _ _ _ _); cbn [mbind result_bind];
    [|left; congruence].
  destruct (_strip_html soup (field_html "title" block)) as [title_txt|e']
    eqn:Ht; cbn [mbind result_bind].
  - destruct (_strip_html soup (field_html "body" block)) as [body_txt|e'']
      eqn:Hb; cbn [mbind result_bind]; [discriminate|].
    intros [= ->]. right. right. now apply strip_html_raises.
  - intros [= ->]. right. left. now apply strip_html_raises.
Qed.

Lemma parse_blocks_mapM (blocks : list string) (events : list event) :
  parse_blocks soup blocks events
  = rs ← mapM (parse_block soup) blocks; Ok (events ++ omap id rs).
Proof.
  revert events. induction blocks as [|block rest IH]; intros events.
  - cbn. now rewrite app_nil_r.
  - cbn [parse_blocks mapM].
    destruct (parse_block soup block) as [[ev|]|e]; cbn [mbind result_bind];
      [| |reflexivity]; rewrite IH;
      destruct (mapM (parse_block soup) rest) as [rs|e]; cbn;
      try reflexivity.
    now rewrite <- app_assoc.
Qed.

(** X1: on a text blob [extract_events] is the loop body applied to the
    blocks in blob order: it raises what the first failing block raises,
    and otherwise returns the records of the blocks that were not skipped,
    in the order of their blocks, without removing repeated records. *)
Theorem extract_events_in_blob_order (s : string) :
  extract_events soup (JStr s)
  = rs ← mapM (parse_block soup) (findall EVENT_BLOCK_RE s); Ok (omap id rs).
Proof.
  unfold extract_events. cbn [truthy]. destruct s as [|c s].
  - reflexivity.
  - cbn [String.eqb negb]. apply parse_blocks_mapM.
Qed.

Lemma mapM_raises {A B} (f : A -> result B) (l : list A) (e : exn) :
  mapM f l = Raise e -> exists x, x ∈ l /\ f x = Raise e.
Proof.
  induction l as [|x l IH]; cbn [mapM]; [discriminate|].
  destruct (f x) as [y|e'] eqn:Hx; cbn [mbind result_bind].
  - destruct (mapM f l) as [k|e'']; cbn; [discriminate|].
    intros [= ->]. destruct (IH eq_refl) as (x' & Hin & Hx').
    exists x'. split; [now right|assumption].
  - intros [= ->]. exists x. split; [now left|assumption].
Qed.

(** X2: [extract_events] raises in three cases only: [TypeError] on a
    truthy value that is no text, [ValueError] on a text with a block whose
    date fields do not form a date, and what the HTML parser raises on the
    title or on the body of a block. *)
Theorem extract_events_raises (v : json) (e : exn) :
  extract_events soup v = Raise e ->
  (e = TypeError /\ truthy v = true /\ forall s, v <> JStr s) \/
  (exists s block,
     v = JStr s /\ block ∈ findall EVENT_BLOCK_RE s /\
     parse_block soup block = Raise e /\
     (e = ValueError \/
      soup (field_html "title" block) = Raise e \/
      soup (field_html "body" block) = Raise e)).
Proof.
  destruct v as [|b|n|s|items|fields].
  1-3, 5-6: unfold extract_events;
    destruct (negb (truthy _)) eqn:Ht; [discriminate|];
    intros [= <-]; left; apply negb_false_iff in Ht;
    (split; [reflexivity|split; [exact Ht|discriminate]]).
  unfold extract_events. cbn [truthy].
  destruct s as [|c s]; [discriminate|]. cbn [String.eqb negb].
  rewrite parse_blocks_mapM. generalize (String c s). clear c s. intros s.
  destruct (mapM (parse_block soup) (findall EVENT_BLOCK_RE s)) as [rs|e']
    eqn:Hm; cbn; [discriminate|].
  intros [= ->]. destruct (mapM_raises _ _ _ Hm) as (block & Hin & Hb).
  right. exists s, block. split; [reflexivity|]. split; [exact Hin|].
  split; [exact Hb|]. now apply parse_block_raises.
Qed.

Lemma take_length_le (n : nat) (s : string) :
  (String.length (Str.take n s) <= n)%nat.
Proof.
  revert s. induction n as [|n IH]; intros [|c s]; cbn; try lia.
  specialize (IH s). lia.
Qed.

Lemma mk_datetime_valid (y m d hh mm : Z) (dt : datetime) :
  mk_datetime y m d hh mm = Ok dt ->
  valid_fields (year dt) (month dt) (day dt) (hour dt) (minute dt) = true.
Proof.
  unfold mk_datetime. destruct (valid_fields y m d hh mm) eqn:Hv; [|discriminate].
  now intros [= <-].
Qed.

(** X3: every record the parser emits has a summary of 1 to 200
    characters (the placeholder when the stripped title is empty), a
    description of at most 2000 characters, and a start and an end that are
    dates of the calendar: year 1 to 9999, month 1 to 12, a day of that
    month, hour 0 to 23, minute 0 to 59. *)
Theorem record_bounds (block : string) (ev : event) :
  parse_block soup block = Ok (Some ev) ->
  ev_summary ev <> EmptyString /\
  (String.length (ev_summary ev) <= 200)%nat /\
  (String.length (ev_description ev) <= 2000)%nat /\
  valid_fields (year (ev_start ev)) (month (ev_start ev)) (day (ev_start ev))
    (hour (ev_start ev)) (minute (ev_start ev)) = true /\
  valid_fields (year (ev_end ev)) (month (ev_end ev)) (day (ev_end ev))
    (hour (ev_end ev)) (minute (ev_end ev)) = true.
Proof.
  intros Hb.
  destruct (parse_block_inv _ _ Hb)
    as (sm & em & title & body & _ & _ & Hstart & Hend & _ & _ & Hsum & _ & Hdesc).
  rewrite Hsum, Hdesc. clear Hsum Hdesc.
  split; [|split; [|split; [|split]]].
  - destruct title as [|c t]; cbn; discriminate.
  - destruct (nonempty title); [apply take_length_le|cbn; lia].
  - destruct (nonempty body); [apply take_length_le|cbn; lia].
  - unfold _parse_js_date in Hstart. now apply mk_datetime_valid in Hstart.
  - unfold _parse_js_date in Hend. now apply mk_datetime_valid in Hend.
Qed.

End RecordFacts.

(** ** What a match consumes *)

Section MatchFacts.
Import Re Parser Room Text.

Lemma orelse_Some {A} (x y : option A) (a : A) :
  orelse x y = Some a -> x = Some a \/ y = Some a.
Proof. destruct x; cbn; auto. Qed.

Lemma rep_consumes {A} (p : ascii -> bool) (lo : nat) (hi : option nat)
    (greedy : bool) (s : string) (k : string -> option A) (a : A) :
  rep p lo hi greedy s k = Some a ->
  exists pre rest, s = pre +:+ rest /\ k rest = Some a.
Proof.
  revert lo hi. induction s as [|c s IH]; intros lo hi.
  - destruct lo as [|lo]; [|discriminate]. cbn.
    intros Hk. exists EmptyString, EmptyString.
    split; [reflexivity|]. now destruct hi as [[|]|].
  - assert (Hmore : forall lo' hi',
              (if p c then rep p lo' hi' greedy s k else None) = Some a ->
              exists pre rest, String c s = pre +:+ rest /\ k rest = Some a).
    { intros lo' hi' Hm. destruct (p c); [|discriminate].
      destruct (IH _ _ Hm) as (pre & rest & -> & Hk).
      exists (String c pre), rest. split; [reflexivity|assumption]. }
    assert (Hstop : k (String c s) = Some a ->
              exists pre rest, String c s = pre +:+ rest /\ k rest = Some a).
    { intros Hk. exists EmptyString, (String c s). split; [reflexivity|assumption]. }
    destruct lo as [|lo]; cbn [rep]; [|apply Hmore].
    destruct hi as [[|hi]|]; [exact Hstop| |];
      (destruct greedy; intros [Hm|Hm]%orelse_Some;
       first [now apply Hstop | eapply Hmore, Hm]).
Qed.

Lemma rmatch_consumes {A} (r : regex) (s : string) (g : groups)
    (k : string -> groups -> option A) (a : A) :
  rmatch r s g k = Some a ->
  exists pre rest g', s = pre +:+ rest /\ k rest g' = Some a.
Proof.
  revert s g k. induction r as [l|p|p lo hi greedy|r1 IH1 r2 IH2|r1 IH1 r2 IH2|n r1 IH1|n];
    intros s g k; cbn [rmatch].
  - destruct (Str.strip_prefix l s) as [s'|] eqn:Hl; [|discriminate].
    intros Hk. exists l, s', g. split; [now apply strip_prefix_app|assumption].
  - destruct s as [|c s]; [discriminate|]. destruct (p c); [|discriminate].
    intros Hk. exists (String c EmptyString), s, g. split; [reflexivity|assumption].
  - intros Hr. destruct (rep_consumes _ _ _ _ _ _ _ Hr) as (pre & rest & -> & Hk).
    exists pre, rest, g. split; [reflexivity|assumption].
  - intros Hr. destruct (IH1 _ _ _ Hr) as (pre1 & rest1 & g1 & -> & Hr2).
    destruct (IH2 _ _ _ Hr2) as (pre2 & rest2 & g2 & -> & Hk).
    exists (pre1 +:+ pre2), rest2, g2. split; [now rewrite append_assoc|assumption].
  - intros [Hr|Hr]%orelse_Some; [exact (IH1 _ _ _ Hr)|exact (IH2 _ _ _ Hr)].
  - intros Hr. destruct (IH1 _ _ _ Hr) as (pre & rest & g' & -> & Hk).
    eexists pre, rest, _. split; [reflexivity|exact Hk].
  - destruct (g !! n) as [t|]; [|discriminate].
    destruct (Str.strip_prefix t s) as [s'|] eqn:Ht; [|discriminate].
    intros Hk. exists t, s', g. split; [now apply strip_prefix_app|assumption].
Qed.

Lemma match_at_inv (r : regex) (s : string) (pos : nat) (m : match_obj) :
  match_at r s pos = Some m ->
  exists rest, s = m_group0 m +:+ rest /\
               m_start m = pos /\
               m_end m = (pos + String.length (m_group0 m))%nat.
Proof.
  unfold match_at. intros Hm.
  destruct (rmatch_consumes _ _ _ _ _ Hm) as (pre & rest & g' & -> & [= <-]).
  cbn. rewrite consumed_app, append_length. exists rest.
  split; [reflexivity|]. split; [reflexivity|]. lia.
Qed.

Lemma scan_inv (r : regex) (s : string) (pos : nat) (m : match_obj) :
  scan r s pos = Some m ->
  exists skipped rest,
    s = skipped +:+ m_group0 m +:+ rest /\
    m_start m = (pos + String.length skipped)%nat /\
    m_end m = (m_start m + String.length (m_group0 m))%nat.
Proof.
  revert pos. induction s as [|c s IH]; intros pos; cbn [scan].
  - destruct (match_at r "" pos) as [m'|] eqn:Hm; [|discriminate].
    intros [= <-]. destruct (match_at_inv _ _ _ _ Hm) as (rest & Hs & Hst & Hend).
    exists EmptyString, rest. cbn. rewrite Hst. split; [exact Hs|]. split; lia.
  - destruct (match_at r (String c s) pos) as [m'|] eqn:Hm.
    + intros [= <-]. destruct (match_at_inv _ _ _ _ Hm) as (rest & Hs & Hst & Hend).
      exists EmptyString, rest. cbn. rewrite Hst. split; [exact Hs|]. split; lia.
    + intros Hsc. destruct (IH _ Hsc) as (skipped & rest & -> & Hst & Hend).
      exists (String c skipped), rest. cbn. split; [reflexivity|]. split; lia.
Qed.

Lemma take_drop (n : nat) (s : string) : Str.take n s +:+ Str.drop n s = s.
Proof.
  revert s. induction n as [|n IH]; intros [|c s]; cbn; try reflexivity.
  rewrite append_cons. now rewrite IH.
Qed.

Lemma take_length (n : nat) (s : string) :
  String.length (Str.take n s) = Nat.min n (String.length s).
Proof.
  revert s. induction n as [|n IH]; intros [|c s]; cbn; try reflexivity.
  now rewrite IH.
Qed.

Lemma drop_app (a b : string) : Str.drop (String.length a) (a +:+ b) = b.
Proof. induction a as [|c a IH]; [now destruct b|exact IH]. Qed.

(** A match found by [search] is the slice of the subject between its
    offsets, which lie at or after the position the search started from. *)
Lemma search_inv (r : regex) (s : string) (pos : nat) (m : match_obj) :
  search r s pos = Some m ->
  (Nat.min pos (String.length s) <= m_start m)%nat /\
  (m_start m <= m_end m)%nat /\
  (m_end m <= String.length s)%nat /\
  m_group0 m = Str.take (m_end m - m_start m) (Str.drop (m_start m) s).
Proof.
  unfold search. intros Hsc.
  destruct (scan_inv _ _ _ _ Hsc) as (skipped & rest & Hs & Hst & Hend).
  assert (Hfull : s = (Str.take pos s +:+ skipped) +:+ m_group0 m +:+ rest).
  { rewrite append_assoc, <- Hs. symmetry. apply take_drop. }
  assert (Hlen : m_start m = String.length (Str.take pos s +:+ skipped)).
  { now rewrite append_length, take_length. }
  split; [lia|]. split; [lia|]. split.
  - pose proof (f_equal String.length Hfull) as Hl.
    rewrite !append_length, take_length in Hl. lia.
  - clear Hsc Hs Hst. revert Hfull Hlen Hend.
    generalize (Str.take pos s +:+ skipped) as b. intros b -> Hlen Hend.
    rewrite Hlen, drop_app.
    replace (m_end m - String.length b)%nat
      with (String.length (m_group0 m)) by lia.
    now rewrite take_app.
Qed.

End MatchFacts.

(** ** Tokens and location of a record *)

Section TokenFacts.
Import Re Parser Room Text.
Variable soup : string -> result string.

(** X4: in a block whose record is emitted, the start is read from the
    first date token of the block and the end from the first date token
    that begins at or after the end of that one: the two tokens do not
    overlap, and each is the slice of the block between its offsets. *)
Theorem date_tokens_in_order (block : string) (ev : event) :
  parse_block soup block = Ok (Some ev) ->
  exists sm em,
    search DATE_RE block 0 = Some sm /\
    search DATE_RE block (m_end sm) = Some em /\
    _parse_js_date sm = Ok (ev_start ev) /\
    _parse_js_date em = Ok (ev_end ev) /\
    (m_start sm <= m_end sm <= m_start em)%nat /\
    (m_start em <= m_end em <= String.length block)%nat /\
    m_group0 sm = Str.take (m_end sm - m_start sm) (Str.drop (m_start sm) block) /\
    m_group0 em = Str.take (m_end em - m_start em) (Str.drop (m_start em) block).
Proof.
  intros Hb.
  destruct (parse_block_inv soup _ _ Hb)
    as (sm & em & title & body & Hsm & Hem & Hstart & Hend & _).
  destruct (search_inv _ _ _ _ Hsm) as (_ & Hs1 & Hs2 & Hs3).
  destruct (search_inv _ _ _ _ Hem) as (He0 & He1 & He2 & He3).
  exists sm, em. repeat split; try assumption. lia.
Qed.

Lemma first_room_substring (s : string) : substring (first_room s) s.
Proof.
  induction s as [|c s IH]; cbn [first_room].
  - destruct (at_start "") as [[t rest]|] eqn:Hs.
    + exists EmptyString, rest. rewrite append_nil. now apply at_start_split.
    + now exists EmptyString, EmptyString.
  - destruct (at_start (String c s)) as [[t rest]|] eqn:Hs.
    + exists EmptyString, rest. rewrite append_nil. now apply at_start_split.
    + destruct IH as (pre & post & Hs'). exists (String c pre), post.
      rewrite append_cons. now f_equal.
Qed.

(** X5: the location of a record is a piece of the stripped title of its
    block, and of nothing else: it occurs in the stripped title as it
    stands, and a block whose stripped title is empty gets the empty
    location together with the placeholder summary. *)
Theorem location_within_title (block : string) (ev : event) :
  parse_block soup block = Ok (Some ev) ->
  exists title_txt,
    _strip_html soup (field_html "title" block) = Ok title_txt /\
    substring (ev_location ev) title_txt /\
    (title_txt = EmptyString ->
     ev_location ev = EmptyString /\ ev_summary ev = "Class").
Proof.
  intros Hb.
  destruct (parse_block_inv soup _ _ Hb)
    as (sm & em & title & body & _ & _ & _ & _ & Ht & _ & Hsum & Hloc & _).
  exists title. split; [exact Ht|].
  rewrite Hloc, Hsum, location_of_first_room. split.
  - apply first_room_substring.
  - intros ->. split; reflexivity.
Qed.

End TokenFacts.

(** ** Text clean-up *)

Section TextFacts.
Import Parser Text.

Lemma append_empty (a : string) : a +:+ EmptyString = a.
Proof.
  induction a as [|c a IH]; [reflexivity|]. now rewrite append_cons, IH.
Qed.

Lemma spaceless_of_list (l : list ascii) :
  Forall (fun c => Chr.space c = false) l ->
  spaceless (string_of_list_ascii l) = true.
Proof.
  induction 1 as [|c l Hc _ IH]; cbn; [reflexivity|]. now rewrite Hc, IH.
Qed.

Lemma piece_word (cur : list ascii) :
  cur <> [] -> Forall (fun c => Chr.space c = false) cur ->
  word (string_of_list_ascii (rev cur)).
Proof.
  intros Hne Hcur. split.
  - destruct (rev cur) as [|c l] eqn:Hrev; [|discriminate].
    apply (f_equal (@rev ascii)) in Hrev. rewrite rev_involutive in Hrev.
    contradiction.
  - apply spaceless_of_list. now apply Forall_rev.
Qed.

Lemma split_from_words (s : string) (cur : list ascii) :
  Forall (fun c => Chr.space c = false) cur ->
  Forall word (Str.split_from s cur).
Proof.
  revert cur. induction s as [|c s IH]; intros cur Hcur; cbn [Str.split_from].
  - destruct cur as [|a cur]; [constructor|].
    constructor; [|constructor]. now apply piece_word.
  - destruct (Chr.space c) eqn:Hc.
    + destruct cur as [|a cur]; [now apply IH|].
      constructor; [now apply piece_word|now apply IH].
    + apply IH. now constructor.
Qed.

Lemma split_from_word (p s : string) (cur : list ascii) :
  spaceless p = true ->
  Str.split_from (p +:+ s) cur
  = Str.split_from s (rev (list_ascii_of_string p) ++ cur).
Proof.
  revert cur. induction p as [|c p IH]; intros cur; [reflexivity|].
  cbn [spaceless]. intros [Hc Hp]%andb_true_iff. apply negb_true_iff in Hc.
  rewrite append_cons. cbn [Str.split_from list_ascii_of_string rev].
  rewrite Hc, IH by assumption. now rewrite <- app_assoc.
Qed.

Lemma piece_of_word (p : string) :
  string_of_list_ascii (rev (rev (list_ascii_of_string p) ++ [])) = p.
Proof.
  now rewrite app_nil_r, rev_involutive, string_of_list_ascii_of_string.
Qed.

Lemma word_chars (p : string) :
  p <> EmptyString -> rev (list_ascii_of_string p) ++ [] <> [].
Proof.
  destruct p as [|c p]; [contradiction|]. intros _. cbn.
  rewrite app_nil_r. intros Hnil. apply app_eq_nil in Hnil as [_ [=]].
Qed.

(** Splitting what [join] made of words gives the words back. *)
Lemma split_join (ps : list string) :
  Forall word ps -> Str.split (Str.join " " ps) = ps.
Proof.
  unfold Str.split.
  induction 1 as [|p ps [Hne Hp] Hps IH]; [reflexivity|].
  destruct ps as [|q ps].
  - cbn [Str.join]. rewrite <- (append_empty p) at 1.
    rewrite split_from_word by assumption. cbn [Str.split_from].
    destruct (rev (list_ascii_of_string p) ++ []) eqn:Hcur.
    + now apply word_chars in Hcur.
    + now rewrite <- Hcur, piece_of_word.
  - change (Str.join " " (p :: q :: ps))
      with (p +:+ " " +:+ Str.join " " (q :: ps)).
    rewrite split_from_word by assumption.
    rewrite append_cons, append_nil.
    generalize dependent (Str.join " " (q :: ps)). intros rest IH.
    cbn [Str.split_from]. change (Chr.space " ") with true. cbn iota.
    destruct (rev (list_ascii_of_string p) ++ []) eqn:Hcur.
    + now apply word_chars in Hcur.
    + rewrite <- Hcur, piece_of_word. f_equal. exact IH.
Qed.

Variable soup : string -> result string.

(** X6: [_strip_html] raises what the HTML parser raises, and otherwise
    returns the words of the extracted text joined by single spaces: every
    word is non-empty and free of white space, and splitting the result
    again gives the same words, so that collapsing the white space a second
    time changes nothing. *)
Theorem strip_html_words (html : string) :
  match _strip_html soup html with
  | Ok out =>
      exists text words,
        soup html = Ok text /\
        words = Str.split text /\
        Forall word words /\
        out = Str.join " " words /\
        Str.split out = words /\
        Str.join " " (Str.split out) = out
  | Raise e => soup html = Raise e
  end.
Proof.
  unfold _strip_html. destruct (soup html) as [text|e]; cbn; [|reflexivity].
  exists text, (Str.split text).
  assert (Hw : Forall word (Str.split text))
    by (apply split_from_words; constructor).
  rewrite (split_join _ Hw). now repeat split.
Qed.

Lemma replace_from_length (old new s : string) (skip : nat) :
  (String.length new <= String.length old)%nat ->
  (String.length (Str.replace_from old new s skip)
   + Nat.min skip (String.length s) <= String.length s)%nat.
Proof.
  intros Hnew. revert skip.
  induction s as [|c s IH]; intros skip; cbn [Str.replace_from].
  - cbn. lia.
  - destruct skip as [|n].
    + destruct old as [|a old].
      * cbn [String.length]. specialize (IH O). lia.
      * destruct (Str.strip_prefix (String a old) (String c s)) as [r|] eqn:Hr.
        -- apply strip_prefix_app in Hr.
           apply (f_equal String.length) in Hr.
           rewrite append_length in Hr. cbn [String.length] in Hr, Hnew |- *.
           rewrite append_length.
           specialize (IH (Nat.pred (S (String.length old)))).
           lia.
        -- cbn [String.length]. specialize (IH O). lia.
    + cbn [String.length]. specialize (IH n). lia.
Qed.

Lemma replace_length (old new s : string) :
  (String.length new <= String.length old)%nat ->
  (String.length (Str.replace old new s) <= String.length s)%nat.
Proof.
  intros Hnew. pose proof (replace_from_length old new s O Hnew).
  unfold Str.replace. lia.
Qed.

Lemma replace_absent (c : ascii) (old new s : string) :
  occurs c s = false -> Str.replace (String c old) new s = s.
Proof.
  unfold Str.replace. induction s as [|d s IH]; [reflexivity|].
  cbn [occurs]. intros [Hc Hs]%orb_false_iff.
  cbn [Str.replace_from Str.strip_prefix]. rewrite Hc. now rewrite IH.
Qed.

(** X7: [unescape_js] never makes a text longer, and it leaves a text
    without a backslash as it is. *)
Theorem unescape_js_shrinks (s : string) :
  (String.length (unescape_js s) <= String.length s)%nat /\
  (occurs "092" s = false -> unescape_js s = s).
Proof.
  unfold unescape_js. split.
  - repeat (etransitivity; [apply replace_length; vm_compute; lia|]).
    reflexivity.
  - intros Hs. unfold backslash. rewrite !append_cons, !append_nil.
    now rewrite !(replace_absent _ _ _ s Hs).
Qed.

End TextFacts.

(** ** The cache between requests *)

Section CacheFacts.
Import Main Reference Driver.
Context `{Env}.

Lemma needs_refresh_false (st : cache) (t : aware) :
  needs_refresh st t = Ok false ->
  exists b ics expires,
    _cache_ics st = Some (b :: ics) /\ _cache_expires st = At expires /\
    instant t < instant expires.
Proof.
  unfold needs_refresh.
  destruct (_cache_ics st) as [[|b ics]|]; try discriminate.
  destruct (_cache_expires st) as [|expires]; [discriminate|].
  intros [= Hlt%Z.leb_gt]. now exists b, ics, expires.
Qed.

Lemma calendar_Ok (st : cache) (w : World) (r : http_response)
    (st' : cache) (w' : World) :
  calendar st w = (Ok r, st', w') ->
  r = respond st' /\
  (_cache_ics st' = None \/
   (exists expires, _cache_expires st' = At expires) \/
   _cache_ics st' = Some []).
Proof.
  unfold calendar. destruct (now w) as [t w1].
  destruct (needs_refresh st t) as [[|]|e] eqn:Hguard.
  - unfold refresh_then_respond, refresh_cache.
    destruct (gather w1) as [[ics|e] w2]; [|discriminate].
    destruct (now w2) as [t2 w3]. unfold set_expires.
    destruct (shift t2 (REFRESH_MIN * MINUTE)) as [expires|e]; cbn;
      [|discriminate].
    intros [= <- <- <-].
    split; [reflexivity|]. right. left. cbn. eauto.
  - intros [= <- <- <-]. split; [reflexivity|].
    apply needs_refresh_false in Hguard as (b & ics & expires & _ & He & _).
    eauto.
  - discriminate.
Qed.

(** X8: a request that follows an answered one, and reads the clock
    before the expiry the first one left, gets the same body from the
    cache: the slot is unchanged and the outside is only asked for the
    time.  An empty body is never served from the cache: the next request
    runs a cycle again. *)
Theorem calendar_hit_after_answer (st : cache) (w : World)
    (r : http_response) (st' : cache) (w' : World) :
  calendar st w = (Ok r, st', w') ->
  (content r <> [] ->
   (forall expires, _cache_expires st' = At expires ->
      instant (now w').1 < instant expires) ->
   calendar st' w' = (Ok r, st', (now w').2)) /\
  (content r = [] ->
   calendar st' w' = refresh_then_respond st' (now w').2).
Proof.
  intros Hfirst. apply calendar_Ok in Hfirst as [-> Hslot].
  unfold calendar, respond, needs_refresh. destruct (now w') as [t2 w2].
  cbn [fst snd content].
  destruct (_cache_ics st') as [[|b ics]|] eqn:Hics; cbn [default].
  - split; [now intros []|reflexivity].
  - split; [|discriminate]. intros _ Hfresh.
    destruct Hslot as [[=]|[[expires He]|[=]]].
    rewrite He. specialize (Hfresh _ He).
    apply Z.leb_gt in Hfresh. now rewrite Hfresh.
  - split; [now intros []|reflexivity].
Qed.

Lemma serve_slot_ok (n : nat) (st : cache) (w : World) :
  (forall cal ics, to_ical cal = Ok ics -> ics <> []) ->
  slot_ok st ->
  Forall (fun r => r <> Raise OverflowError) (serve n st w).1.1 ->
  slot_ok (serve n st w).1.2.
Proof.
  intros Hemit. revert st w.
  induction n as [|n IH]; intros st w Hok; [intros _; exact Hok|].
  cbn [serve]. pose proof (slot_ok_calendar st w Hemit Hok) as Hnext.
  destruct (calendar st w) as [[r st'] w']. cbn [fst snd] in Hnext.
  specialize (IH st' w').
  destruct (serve n st' w') as [[rs st''] w'']. cbn [fst snd] in *.
  intros [Hr Hrs]%Forall_cons. auto.
Qed.

(** X9: with an emitter whose output is never empty, and as long as no
    request has failed with [OverflowError] (the expiry of a refresh out of
    range), requests handled one after the other never meet the naive
    [datetime.min] in the guard: after any number of them, starting from
    the empty cache, the guard evaluates to a boolean at every clock
    reading, and the next request can only fail with what its own cycle
    raised or with the [OverflowError] of its expiry. *)
Theorem sequential_requests_guard_total (n : nat) (w : World) :
  (forall cal ics, to_ical cal = Ok ics -> ics <> []) ->
  Forall (fun r => r <> Raise OverflowError) (serve n initial w).1.1 ->
  let st := (serve n initial w).1.2 in
  let w' := (serve n initial w).2 in
  (forall t, exists b, needs_refresh st t = Ok b) /\
  (forall e, (calendar st w').1.1 = Raise e ->
     (gather (now w').2).1 = Raise e \/
     (e = OverflowError /\ exists ics, (gather (now w').2).1 = Ok ics)).
Proof.
  intros Hemit Hrun st w'.
  assert (Hok : slot_ok st)
    by (apply serve_slot_ok; [exact Hemit|exact slot_ok_initial|exact Hrun]).
  assert (Hguard : forall t, exists b, needs_refresh st t = Ok b).
  { intros t. unfold needs_refresh. unfold slot_ok in Hok.
    destruct (_cache_ics st) as [[|b ics]|]; eauto.
    destruct Hok as [_ [expires ->]]. eauto. }
  split; [exact Hguard|].
  intros e. unfold calendar. destruct (now w') as [t w1]. cbn [snd].
  destruct (Hguard t) as [[|] ->]; [|discriminate].
  unfold refresh_then_respond, refresh_cache.
  destruct (gather w1) as [[ics|e'] w2]; cbn [fst]; [|intros [= ->]; now left].
  destruct (now w2) as [t2 w3]. unfold set_expires.
  destruct (shift t2 (REFRESH_MIN * MINUTE)) as [expires|e'] eqn:Hs; cbn;
    [discriminate|].
  intros [= ->]. apply shift_Raise in Hs as ->. right. eauto.
Qed.

End CacheFacts.

(** ** Requests that overlap *)

Section RaceFacts.
Import Main Reference.
Context `{Env}.

(** X10: the first refresh publishes in two assignments, and the expiry
    starts as the naive [datetime.min].  A second request that evaluates
    the guard between the two finds bytes in [_cache_ics] and compares its
    aware clock reading with the naive value: it fails with [TypeError],
    while the first request is still about to assign [_cache_expires]. *)
Theorem guard_between_assignments (w : World) (ics : bytes) :
  (gather (now w).2).1 = Ok ics ->
  ics <> [] ->
  let c := exec [0; 0; 0; 0; 1; 1]%nat (start 2 initial w) in
  rtc step (start 2 initial w) c /\
  shared c = {| _cache_ics := Some ics; _cache_expires := NaiveMin |} /\
  pool c = [AtSetExpires; Failed TypeError].
Proof.
  intros Hgather Hne c. split; [apply exec_steps|].
  subst c. unfold start. cbn [replicate exec]. unfold sched. cbn.
  destruct (now w) as [t w1]. cbn in *.
  destruct (gather w1) as [r w2]. cbn in *. subst r. cbn.
  destruct (now w2) as [t2 w3]. cbn.
  destruct ics as [|b ics]; [contradiction|]. cbn. auto.
Qed.

End RaceFacts.

(** ** Upstream requests of a cycle *)

Section RequestFacts.
Import Main Reference Driver.
Context {E : Env}.

Lemma probe_instants_length (today : aware) (weeks : list aware) :
  probe_instants today = Ok weeks ->
  length weeks = Z.to_nat (WEEKS_BEFORE + WEEKS_AFTER + 1).
Proof.
  intros ->%probe_instants_Ok. unfold range.
  rewrite length_fmap, length_seqZ. f_equal. lia.
Qed.

(** X11: the upstream requests of one [/calendar.ics] request, counted
    beside the outside state: none when the cache answers or the guard
    raises, and when a cycle runs at least one and at most two for each of
    the WEEKS_BEFORE + WEEKS_AFTER + 1 windows, or none when the window
    list is out of range.  The count changes nothing else: answer, slot
    and outside are those of the uncounted run. *)
Theorem calendar_request_bound (st : cache) (w : World) :
  exists k : nat,
    (forall n : nat,
       @calendar (counted E) st (w, n)
       = ((calendar st w).1, ((calendar st w).2, (n + k)%nat))) /\
    (needs_refresh st (now w).1 = Ok true ->
     (forall weeks, probe_instants (now (now w).2).1 = Ok weeks ->
        (Z.to_nat (WEEKS_BEFORE + WEEKS_AFTER + 1) <= k
         <= 2 * Z.to_nat (WEEKS_BEFORE + WEEKS_AFTER + 1))%nat) /\
     (forall e, probe_instants (now (now w).2).1 = Raise e -> k = 0%nat)) /\
    (needs_refresh st (now w).1 <> Ok true -> k = 0%nat).
Proof.
  destruct (needs_refresh st (now w).1) as [[|]|e] eqn:Hguard.
  - exists (cycle_requests E (now w).2).
    split; [apply (calendar_refreshes st w Hguard)|].
    split; [|now intros []]. intros _. split.
    + intros weeks Hweeks. rewrite <- (probe_instants_length _ _ Hweeks).
      now apply cycle_requests_bounds.
    + intros e. apply cycle_requests_none.
  - exists 0%nat. split; [|split; [discriminate|reflexivity]].
    intros n. rewrite Nat.add_0_r.
    destruct (calendar_answers st w (Ok (respond st))) as [-> ->];
      [now rewrite Hguard|reflexivity].
  - exists 0%nat. split; [|split; [discriminate|reflexivity]].
    intros n. rewrite Nat.add_0_r.
    destruct (calendar_answers st w (Raise e)) as [-> ->];
      [now rewrite Hguard|reflexivity].
Qed.

End RequestFacts.

(** ** The windows and the components of a cycle *)

Section WindowFacts.
Import Main Reference Driver.
Context `{Env}.

(** X12: when the window list of a cycle is built, it has
    WEEKS_BEFORE + WEEKS_AFTER + 1 instants one week apart, the first
    WEEKS_BEFORE weeks before the clock reading, and the reading itself is
    one of them when neither setting is negative.  When a window is out of
    the range of [datetime], the comprehension raises [OverflowError]:
    [refresh_cache] then raises it before any request goes upstream and
    leaves both slots as they were. *)
Theorem probe_instants_weekly (today : aware) :
  match probe_instants today with
  | Ok weeks =>
      length weeks = Z.to_nat (WEEKS_BEFORE + WEEKS_AFTER + 1) /\
      (forall i : nat,
         (i < length weeks)%nat ->
         weeks !! i
         = Some {| instant := instant today + (Z.of_nat i - WEEKS_BEFORE) * WEEK;
                   utcoffset := utcoffset today |}) /\
      (0 <= WEEKS_BEFORE -> 0 <= WEEKS_AFTER ->
       weeks !! Z.to_nat WEEKS_BEFORE = Some today)
  | Raise e =>
      e = OverflowError /\
      (exists k, - WEEKS_BEFORE <= k <= WEEKS_AFTER /\
                 shift today (k * WEEK) = Raise OverflowError) /\
      (forall st w, (now w).1 = today ->
         refresh_cache st w = (Raise OverflowError, st, (now w).2))
  end.
Proof.
  destruct (probe_instants today) as [weeks|e] eqn:Hweeks.
  - pose proof (probe_instants_Ok _ _ Hweeks) as ->.
    assert (Hlen : length ((fun k => {| instant := instant today + k * WEEK;
                                         utcoffset := utcoffset today |})
                           <$> range (- WEEKS_BEFORE) (WEEKS_AFTER + 1))
                   = Z.to_nat (WEEKS_BEFORE + WEEKS_AFTER + 1)).
    { unfold range. rewrite length_fmap, length_seqZ. f_equal. lia. }
    assert (Hnth : forall i : nat,
       (i < Z.to_nat (WEEKS_BEFORE + WEEKS_AFTER + 1))%nat ->
       ((fun k => {| instant := instant today + k * WEEK;
                     utcoffset := utcoffset today |})
        <$> range (- WEEKS_BEFORE) (WEEKS_AFTER + 1)) !! i
       = Some {| instant := instant today + (Z.of_nat i - WEEKS_BEFORE) * WEEK;
                 utcoffset := utcoffset today |}).
    { intros i Hi. unfold range.
      rewrite list_lookup_fmap, lookup_seqZ_lt by lia. cbn.
      do 3 f_equal. lia. }
    split; [exact Hlen|]. split.
    + intros i Hi. apply Hnth. now rewrite <- Hlen.
    + intros Hb Ha. rewrite Hnth by lia.
      rewrite Z2Nat.id, Z.sub_diag by assumption.
      destruct today as [i o]. cbn. do 2 f_equal. lia.
  - pose proof Hweeks as Hm. unfold probe_instants in Hm.
    destruct (mapM_raises _ _ _ Hm) as (k & Hk & Hs).
    pose proof (shift_Raise _ _ _ Hs) as ->.
    split; [reflexivity|]. split.
    + exists k. split; [|exact Hs].
      unfold range in Hk. apply elem_of_seqZ in Hk. lia.
    + intros st w Hw. unfold refresh_cache, gather, cycle_records.
      destruct (now w) as [t w1]. cbn [fst snd] in *. subst t.
      now rewrite Hweeks.
Qed.

(** X13: a window whose week code is not resolved costs one request:
    when the answer to the code-week request is no object with a truthy
    [d] (the request failed, the status is an error, the body is no JSON
    or no object, or [d] is missing, null or empty), the window is left
    without a [mudar_semana] request, as [None]. *)
Theorem fetch_window_unresolved (dt : aware) (w : World) :
  let sent := post GET_CODE_WEEK_URL (JObj [("data", JStr (strftime dt))]) w in
  (forall fields v,
     sent.1 = Some {| status_ok := true; body := Some (JObj fields) |} ->
     last_field "d" fields None = Some v -> truthy v = false) ->
  fetch_window dt w = (None, sent.2).
Proof.
  intros sent Hd. subst sent.
  unfold fetch_window, get_code_week_for_date, post_json.
  destruct (post GET_CODE_WEEK_URL _ w) as [[[ok b]|] w1]; cbn in *;
    [|reflexivity].
  destruct ok; cbn; [|reflexivity].
  destruct b as [j|]; cbn; [|reflexivity].
  destruct j as [| | | | |fields]; cbn; try reflexivity.
  destruct (last_field "d" fields None) as [v|] eqn:Hv; cbn; [|reflexivity].
  now rewrite (Hd fields v eq_refl Hv).
Qed.

Lemma vevent_inv (ev : event) (ve : ical_props) :
  vevent ev = Ok ve ->
  exists dtstart dtend,
    localize (ev_start ev) = Ok dtstart /\
    localize (ev_end ev) = Ok dtend /\
    prop "summary" ve = [VText (or_default (ev_summary ev) "Class")] /\
    prop "uid" ve
    = [VText (str_of_Z (Z.quot (instant dtstart) 1000000) +:+ "-" +:+
              str_of_Z (Z.abs (py_hash (ev_summary ev))) +:+ "@isep-ics")].
Proof.
  unfold vevent.
  destruct (localize (ev_start ev)) as [dtstart|]; [|discriminate].
  destruct (localize (ev_end ev)) as [dtend|]; [|discriminate].
  cbn [mbind result_bind]. intros [= <-]. exists dtstart, dtend.
  split; [reflexivity|]. split; [reflexivity|].
  destruct (Parser.nonempty (ev_location ev)),
    (Parser.nonempty (ev_description ev)); split; reflexivity.
Qed.

(** X14: the UID of a component is made of the start and the summary
    only.  Two records with the same start and summary and different ends
    are both kept by the deduplication, whose key has the end, and their
    components carry the same UID. *)
Theorem uid_shared_by_kept_records (a b : event) (va vb : ical_props) :
  ev_start a = ev_start b ->
  ev_summary a = ev_summary b ->
  ev_end a <> ev_end b ->
  vevent a = Ok va ->
  vevent b = Ok vb ->
  (merge_week [a; b] [] ∅).1 = [a; b] /\
  prop "uid" va = prop "uid" vb /\
  exists uid, prop "uid" va = [VText uid].
Proof.
  intros Hstart Hsum Hend Ha Hb. split; [|split].
  - cbn [merge_week]. rewrite decide_False by set_solver.
    rewrite decide_False; [reflexivity|].
    unfold dedup_key. intros Hin. apply Hend.
    apply elem_of_union in Hin as [Hin%elem_of_singleton|Hin]; [|set_solver].
    congruence.
  - destruct (vevent_inv _ _ Ha) as (sa & ea & Hsa & _ & _ & ->).
    destruct (vevent_inv _ _ Hb) as (sb & eb & Hsb & _ & _ & ->).
    rewrite Hstart, Hsb in Hsa. injection Hsa as ->. now rewrite Hsum.
  - destruct (vevent_inv _ _ Ha) as (sa & ea & _ & _ & _ & ->). eauto.
Qed.

End WindowFacts.

(** ** From the blob to the calendar *)

Section CycleRecords.
Import Re Parser Main Reference Driver.
Context `{Env}.

Lemma mapM_Ok_elem {A B} (f : A -> result B) (l : list A) (rs : list B) :
  mapM f l = Ok rs -> forall r, r ∈ rs -> exists x, x ∈ l /\ f x = Ok r.
Proof.
  revert rs. induction l as [|x l IH]; intros rs; cbn [mapM].
  - intros [= <-] r Hr. now apply elem_of_nil in Hr.
  - destruct (f x) as [y|e] eqn:Hx; cbn [mbind result_bind]; [|discriminate].
    destruct (mapM f l) as [k|e]; cbn; [|discriminate].
    intros [= <-] r [->|Hr]%elem_of_cons.
    + exists x. split; [now left|assumption].
    + destruct (IH k eq_refl r Hr) as (x' & Hin & Hx').
      exists x'. split; [now right|assumption].
Qed.

Lemma extract_events_parsed (soup : string -> result string) (v : json)
    (evs : list event) (ev : event) :
  extract_events soup v = Ok evs -> ev ∈ evs ->
  exists block, parse_block soup block = Ok (Some ev).
Proof.
  unfold extract_events. destruct (negb (truthy v)).
  { intros [= <-] Hev. now apply elem_of_nil in Hev. }
  destruct v as [| | |s| |]; try discriminate.
  rewrite parse_blocks_mapM.
  destruct (mapM (parse_block soup) (findall EVENT_BLOCK_RE s)) as [rs|e]
    eqn:Hm; cbn; [|discriminate].
  intros [= <-] Hev. apply list_elem_of_omap in Hev as (r & Hr & Hid).
  cbn in Hid. subst r.
  destruct (mapM_Ok_elem _ _ _ Hm _ Hr) as (block & _ & Hb). eauto.
Qed.

Lemma fetch_window_parsed (dt : aware) (w : World) (wk : list event)
    (ev : event) :
  (fetch_window dt w).1 = Some wk -> ev ∈ wk ->
  exists block, parse_block soup_get_text block = Ok (Some ev).
Proof.
  unfold fetch_window.
  destruct (get_code_week_for_date dt w) as [[code_week|e] w1]; [|discriminate].
  destruct (negb (truthy code_week)); [discriminate|].
  unfold get_week_events.
  destruct (post_json MUDAR_SEMANA_URL (week_payload code_week) w1)
    as [[j|e] w2]; cbn; [|discriminate].
  destruct (dict_get j "d" (JStr EmptyString)) as [js_blob|e]; cbn;
    [|discriminate].
  destruct (extract_events soup_get_text js_blob) as [evs|e] eqn:Hx; cbn;
    [|discriminate].
  intros [= <-] Hev. exact (extract_events_parsed _ _ _ _ Hx Hev).
Qed.

Lemma fetched_parsed (weeks : list aware) (w : World) (ev : event) :
  ev ∈ concat (fetched weeks w) ->
  exists block, parse_block soup_get_text block = Ok (Some ev).
Proof.
  revert w. induction weeks as [|dt rest IH]; intros w; cbn [fetched].
  - intros Hev. now apply elem_of_nil in Hev.
  - pose proof (fetch_window_parsed dt w) as Hwin.
    destruct (fetch_window dt w) as [[wk|] w1]; cbn [fst] in Hwin.
    + cbn [concat]. intros [Hev|Hev]%elem_of_app.
      * now apply (Hwin wk).
      * now apply (IH w1).
    + apply IH.
Qed.

(** X15: every record a cycle hands to [build_ics] was emitted by the
    parser for some block of a fetched blob.  Its summary is therefore
    never empty, and the component built for it carries that summary: the
    fallback of [build_ics] for a missing summary is never taken. *)
Theorem cycle_records_parsed (w : World) (events : list event) (ev : event) :
  (cycle_records w).1 = Ok events ->
  ev ∈ events ->
  (exists block, parse_block soup_get_text block = Ok (Some ev)) /\
  ev_summary ev <> EmptyString /\
  (forall ve, vevent ev = Ok ve -> prop "summary" ve = [VText (ev_summary ev)]).
Proof.
  unfold cycle_records. destruct (now w) as [today w1].
  destruct (probe_instants today) as [weeks|e]; [|discriminate].
  destruct (for_weeks_first weeks [] ∅ [] w1) as [Hm _].
  { intros k. rewrite elem_of_empty, elem_of_nil. tauto. }
  destruct (for_weeks weeks [] ∅ w1) as [[merged seen] w2].
  cbn [fst snd] in *. intros [= <-]. rewrite sort_events_perm. rewrite Hm.
  cbn [app]. intros [Hev _]%first_occurrences_sub.
  destruct (fetched_parsed _ _ _ Hev) as [block Hb].
  assert (Hne : ev_summary ev <> EmptyString).
  { destruct (parse_block_inv _ _ _ Hb)
      as (_ & _ & title & _ & _ & _ & _ & _ & _ & _ & -> & _).
    destruct title as [|c t]; cbn; discriminate. }
  split; [eauto|]. split; [exact Hne|].
  intros ve Hve. destruct (vevent_inv _ _ Hve) as (_ & _ & _ & _ & -> & _).
  unfold or_default. destruct (ev_summary ev); [contradiction|reflexivity].
Qed.

Lemma vevents_Ok (evs : list event) (ves : list ical_props) :
  vevents evs = Ok ves -> Forall2 (fun ev ve => vevent ev = Ok ve) evs ves.
Proof.
  revert ves. induction evs as [|ev evs IH]; intros ves; cbn [vevents].
  - intros [= <-]. constructor.
  - destruct (vevent ev) as [ve|e] eqn:Hev; cbn [mbind result_bind];
      [|discriminate].
    destruct (vevents evs) as [ves'|e]; cbn; [|discriminate].
    intros [= <-]. constructor; [assumption|now apply IH].
Qed.

Lemma vevents_Raise (evs : list event) (e : exn) :
  vevents evs = Raise e ->
  exists ev, ev ∈ evs /\
    (localize (ev_start ev) = Raise e \/ localize (ev_end ev) = Raise e).
Proof.
  induction evs as [|ev evs IH]; cbn [vevents]; [discriminate|].
  destruct (vevent ev) as [ve|e'] eqn:Hev; cbn [mbind result_bind].
  - destruct (vevents evs) as [ves'|e']; cbn; [discriminate|].
    intros [= ->]. destruct (IH eq_refl) as (ev' & Hin & Hloc).
    exists ev'. split; [now right|assumption].
  - intros [= ->]. exists ev. split; [now left|].
    unfold vevent in Hev.
    destruct (localize (ev_start ev)) as [s|es]; cbn in Hev;
      [|left; congruence].
    destruct (localize (ev_end ev)) as [t|et]; cbn in Hev;
      [discriminate|right; congruence].
Qed.

(** X16: [build_ics] hands the emitter the three header properties and
    one component for each record, in the order of the records; it raises
    only what the timezone library raises on the start or the end of one
    of the records, or what the emitter raises on that calendar. *)
Theorem build_ics_components (evs : list event) :
  match build_ics evs with
  | Ok ics =>
      exists ves,
        Forall2 (fun ev ve => vevent ev = Ok ve) evs ves /\
        to_ical {| cal_props := calendar_header; cal_events := ves |} = Ok ics
  | Raise e =>
      (exists ev, ev ∈ evs /\
         (localize (ev_start ev) = Raise e \/ localize (ev_end ev) = Raise e)) \/
      (exists ves,
         Forall2 (fun ev ve => vevent ev = Ok ve) evs ves /\
         to_ical {| cal_props := calendar_header; cal_events := ves |} = Raise e)
  end.
Proof.
  unfold build_ics.
  destruct (vevents evs) as [ves|e] eqn:Hves; cbn [mbind result_bind].
  - apply vevents_Ok in Hves.
    destruct (to_ical _) as [ics|e] eqn:Hical; [eauto|right; eauto].
  - left. now apply vevents_Raise.
Qed.

End CycleRecords.

(** ** The monitor and the health endpoint *)

Section HealthFacts.
Import Main Health.

(** X17: the dict [healthz] returns has no [session_valid] and no
    [events_count]: whatever the cache holds, a pass of the monitor over it
    prints the warning mark, zero events and an invalid session, and
    raises the cookie alert. *)
Theorem monitor_always_alerts (isoformat : expiry -> string) (st : cache) :
  monitor_pass (healthz isoformat st)
  = Status false (JNum 0) false (JStr (isoformat (_cache_expires st))) true.
Proof. reflexivity. Qed.

End HealthFacts.

(** ** The cookie utility *)

Section CookieFacts.
Import Text Cookies.

Lemma occurs_app (c : ascii) (a b : string) :
  occurs c (a +:+ b) = occurs c a || occurs c b.
Proof.
  induction a as [|d a IH]; [now rewrite append_nil|].
  rewrite append_cons. cbn [occurs]. now rewrite IH, orb_assoc.
Qed.

Lemma split_on_cons (sep : ascii) (s : string) :
  exists p ps, split_on sep s = p :: ps.
Proof.
  destruct s as [|c s]; cbn [split_on]; [eauto|].
  destruct (Ascii.eqb c sep); [eauto|].
  destruct (split_on sep s); eauto.
Qed.

Lemma split_on_app (sep : ascii) (a b : string) :
  split_on sep (a +:+ String sep b) = split_on sep a ++ split_on sep b.
Proof.
  induction a as [|c a IH].
  - rewrite append_nil. cbn [split_on]. now rewrite Ascii.eqb_refl.
  - rewrite append_cons. cbn [split_on]. rewrite IH.
    destruct (Ascii.eqb c sep); [reflexivity|].
    now destruct (split_on_cons sep a) as (p & ps & ->).
Qed.

Lemma split_on_absent (sep : ascii) (s : string) :
  occurs sep s = false -> split_on sep s = [s].
Proof.
  induction s as [|c s IH]; [reflexivity|].
  cbn [occurs split_on]. intros [Hc Hs]%orb_false_iff.
  rewrite Ascii.eqb_sym, Hc. now rewrite IH.
Qed.

Lemma split_on_pieces (sep : ascii) (s : string) :
  Forall (fun p => occurs sep p = false) (split_on sep s).
Proof.
  induction s as [|c s IH]; cbn [split_on]; [now repeat constructor|].
  destruct (Ascii.eqb c sep) eqn:Hc; [now constructor|].
  destruct (split_on sep s) as [|p ps].
  - repeat constructor. cbn [occurs]. now rewrite Ascii.eqb_sym, Hc.
  - apply Forall_cons in IH as [Hp Hps]. constructor; [|assumption].
    cbn [occurs]. now rewrite Ascii.eqb_sym, Hc, Hp.
Qed.

Lemma cut_Some (sep : ascii) (s a b : string) :
  cut sep s = Some (a, b) -> s = a +:+ String sep b /\ occurs sep a = false.
Proof.
  revert a. induction s as [|c s IH]; intros a; cbn [cut]; [discriminate|].
  destruct (Ascii.eqb_spec c sep) as [->|Hc].
  - intros [= <- <-]. now rewrite append_nil.
  - destruct (cut sep s) as [[a' b']|]; [|discriminate].
    intros [= <- <-]. destruct (IH a' eq_refl) as [-> Ha].
    rewrite append_cons. split; [reflexivity|].
    cbn [occurs]. rewrite Ha, orb_false_r.
    apply Ascii.eqb_neq. congruence.
Qed.

Lemma cut_app (sep : ascii) (a b : string) :
  occurs sep a = false -> cut sep (a +:+ String sep b) = Some (a, b).
Proof.
  induction a as [|c a IH].
  - intros _. rewrite append_nil. cbn [cut]. now rewrite Ascii.eqb_refl.
  - cbn [occurs]. intros [Hc Ha]%orb_false_iff.
    rewrite append_cons. cbn [cut]. rewrite Ascii.eqb_sym, Hc.
    now rewrite IH.
Qed.

Lemma lstrip_suffix (s : string) : exists pre, s = pre +:+ lstrip s.
Proof.
  induction s as [|c s [pre IH]]; [now exists EmptyString|].
  cbn [lstrip]. destruct (Chr.space c).
  - exists (String c pre). rewrite append_cons. now f_equal.
  - now exists EmptyString.
Qed.

Lemma rstrip_prefix (s : string) : exists post, s = rstrip s +:+ post.
Proof.
  induction s as [|c s [post IH]]; [now exists EmptyString|].
  cbn [rstrip]. destruct (rstrip s) as [|d r] eqn:Hr.
  - rewrite append_nil in IH. destruct (Chr.space c).
    + exists (String c s). now rewrite append_nil.
    + exists s. now rewrite append_cons, append_nil.
  - exists post. rewrite append_cons. now f_equal.
Qed.

Lemma strip_occurs (c : ascii) (s : string) :
  occurs c s = false -> occurs c (strip s) = false.
Proof.
  unfold strip. destruct (lstrip_suffix s) as [pre Hs].
  destruct (rstrip_prefix (lstrip s)) as [post Hl].
  intros Hc. rewrite Hs, Hl, !occurs_app in Hc.
  now apply orb_false_iff in Hc as [_ [Hc _]%orb_false_iff].
Qed.

Lemma lstrip_idem (s : string) : lstrip (lstrip s) = lstrip s.
Proof.
  induction s as [|c s IH]; [reflexivity|].
  cbn [lstrip]. destruct (Chr.space c) eqn:Hc; [exact IH|].
  cbn [lstrip]. now rewrite Hc.
Qed.

Lemma rstrip_idem (s : string) : rstrip (rstrip s) = rstrip s.
Proof.
  induction s as [|c s IH]; [reflexivity|].
  cbn [rstrip]. destruct (rstrip s) as [|d r] eqn:Hr.
  - destruct (Chr.space c) eqn:Hc; [reflexivity|].
    cbn [rstrip]. now rewrite Hc.
  - cbn [rstrip]. cbn [rstrip] in IH. now rewrite IH.
Qed.

Lemma lstrip_head (s : string) :
  lstrip s = s ->
  s = EmptyString \/ exists c s', s = String c s' /\ Chr.space c = false.
Proof.
  destruct s as [|c s]; [now left|]. right. exists c, s. split; [reflexivity|].
  cbn [lstrip] in H. destruct (Chr.space c); [|reflexivity].
  destruct (lstrip_suffix s) as [pre Hs]. rewrite H in Hs.
  apply (f_equal String.length) in Hs. rewrite append_length in Hs.
  cbn [String.length] in Hs. lia.
Qed.

Lemma lstrip_rstrip (s : string) : lstrip (lstrip s) = lstrip s ->
  lstrip (rstrip (lstrip s)) = rstrip (lstrip s).
Proof.
  intros _. destruct (lstrip_head (lstrip s) (lstrip_idem s))
    as [->|(c & t & -> & Hc)]; [reflexivity|].
  cbn [rstrip]. destruct (rstrip t); rewrite ?Hc; cbn [lstrip]; now rewrite Hc.
Qed.

Lemma strip_trimmed (s : string) : trimmed (strip s).
Proof.
  unfold trimmed, strip. rewrite lstrip_rstrip by apply lstrip_idem.
  apply rstrip_idem.
Qed.

Lemma trimmed_ends (s : string) : trimmed s -> lstrip s = s /\ rstrip s = s.
Proof.
  unfold trimmed, strip. intros Hs. split; rewrite <- Hs.
  - rewrite lstrip_rstrip by apply lstrip_idem. reflexivity.
  - apply rstrip_idem.
Qed.

Lemma add_cookie_union (cookies : gmap string string) (cookie : string) :
  add_cookie cookies cookie = add_cookie ∅ cookie ∪ cookies.
Proof.
  unfold add_cookie. destruct (cut "=" (strip cookie)) as [[name value]|].
  - now rewrite insert_union_singleton_l, insert_empty.
  - now rewrite (left_id_L ∅ (∪)).
Qed.

Lemma foldl_add_cookie_union (pieces : list string)
    (cookies : gmap string string) :
  foldl add_cookie cookies pieces = foldl add_cookie ∅ pieces ∪ cookies.
Proof.
  revert cookies. induction pieces as [|p ps IH]; intros cookies; cbn [foldl].
  - now rewrite (left_id_L ∅ (∪)).
  - rewrite IH, (IH (add_cookie ∅ p)), (add_cookie_union cookies p).
    now rewrite (assoc_L (∪)).
Qed.

(** X18: [parse_cookie_string] reads the pieces between semicolons from
    left to right, a later piece overriding an earlier one of the same
    name: the cookies of [a;b] are those of [b], and those of [a] whose
    name [b] does not set. *)
Theorem parse_cookie_string_app (a b : string) :
  parse_cookie_string (a +:+ ";" +:+ b)
  = parse_cookie_string b ∪ parse_cookie_string a.
Proof.
  unfold parse_cookie_string. rewrite append_cons, append_nil.
  rewrite split_on_app, foldl_app. apply foldl_add_cookie_union.
Qed.

Lemma add_cookie_clean (P : string -> string -> Prop)
    (cookies : gmap string string) (cookie : string) :
  (forall name value, strip cookie = name +:+ String "=" value ->
     occurs "=" name = false -> P (strip name) (strip value)) ->
  map_Forall P cookies -> map_Forall P (add_cookie cookies cookie).
Proof.
  intros Hnew Hall. unfold add_cookie.
  destruct (cut "=" (strip cookie)) as [[name value]|] eqn:Hcut; [|exact Hall].
  apply cut_Some in Hcut as [Hs Hname].
  apply map_Forall_insert_2; [|exact Hall]. now apply Hnew.
Qed.

(** X19: the names and values [parse_cookie_string] returns are clean:
    no white space at either end, no semicolon, and no equals sign in a
    name (a value keeps the equals signs after the first of its piece). *)
Theorem parse_cookie_string_clean (cookie_string name value : string) :
  parse_cookie_string cookie_string !! name = Some value -> clean name value.
Proof.
  unfold parse_cookie_string. revert name value.
  change (map_Forall clean (foldl add_cookie ∅ (split_on ";" cookie_string))).
  pose proof (split_on_pieces ";" cookie_string) as Hpieces.
  revert Hpieces. generalize (split_on ";" cookie_string) as pieces.
  assert (Hempty : map_Forall clean (∅ : gmap string string))
    by apply map_Forall_empty.
  revert Hempty. generalize (∅ : gmap string string) as cookies.
  intros cookies Hall pieces. revert cookies Hall.
  induction pieces as [|p ps IH]; intros cookies Hall Hpieces; [exact Hall|].
  apply Forall_cons in Hpieces as [Hp Hps].
  cbn [foldl]. apply IH; [|exact Hps].
  apply add_cookie_clean; [|exact Hall].
  intros n v Hs Hn. apply (strip_occurs ";") in Hp.
  rewrite Hs, occurs_app in Hp. cbn [occurs] in Hp.
  apply orb_false_iff in Hp as [Hpn [_ Hpv]%orb_false_iff].
  unfold clean. repeat split; try apply strip_trimmed; now apply strip_occurs.
Qed.

Lemma lstrip_app (a b : string) :
  lstrip a = a -> a <> EmptyString -> lstrip (a +:+ b) = a +:+ b.
Proof.
  intros Ha Hne. destruct (lstrip_head a Ha) as [->|(c & a' & -> & Hc)];
    [contradiction|].
  rewrite append_cons. cbn [lstrip]. now rewrite Hc.
Qed.

Lemma rstrip_app (a b : string) :
  rstrip b = b -> b <> EmptyString -> rstrip (a +:+ b) = a +:+ b.
Proof.
  intros Hb Hne. induction a as [|c a IH]; [now rewrite append_nil|].
  rewrite append_cons. cbn [rstrip]. rewrite IH.
  destruct (a +:+ b) as [|d r] eqn:Hab; [|reflexivity].
  apply (f_equal String.length) in Hab. rewrite append_length in Hab.
  destruct b; [contradiction|]. cbn [String.length] in Hab. lia.
Qed.

Lemma strip_pair (name value : string) :
  trimmed name -> trimmed value ->
  strip (name +:+ String "=" value) = name +:+ String "=" value.
Proof.
  intros [Hln Hrn]%trimmed_ends [Hlv Hrv]%trimmed_ends. unfold strip.
  assert (Hl : lstrip (name +:+ String "=" value) = name +:+ String "=" value).
  { destruct name as [|c n]; [now rewrite append_nil|].
    now apply lstrip_app. }
  rewrite Hl. apply rstrip_app; [|discriminate].
  cbn [rstrip]. rewrite Hrv. now destruct value.
Qed.

Lemma add_cookie_pair (cookies : gmap string string) (name value : string) :
  clean name value ->
  add_cookie cookies (name +:+ String "=" value) = <[name := value]> cookies.
Proof.
  intros (Hn & Hv & Heq & _ & _). unfold add_cookie.
  rewrite strip_pair, cut_app by assumption. now rewrite Hn, Hv.
Qed.

Lemma parse_cookie_string_space (s : string) :
  parse_cookie_string (String " " s) = parse_cookie_string s.
Proof.
  unfold parse_cookie_string. cbn [split_on].
  change (Ascii.eqb " " ";") with false. cbn iota.
  destruct (split_on_cons ";" s) as (p & ps & ->). cbn [foldl].
  reflexivity.
Qed.

(** X20: reading back the header of a list of clean cookies gives the
    cookies of the list, the last of a repeated name: the names and the
    values come back as they were written. *)
Theorem parse_cookie_string_header (cookies : list (string * string)) :
  Forall (fun c => clean c.1 c.2) cookies ->
  parse_cookie_string (header cookies) = list_to_map (reverse cookies).
Proof.
  induction 1 as [|[name value] rest Hc Hrest IH]; [reflexivity|].
  pose proof Hc as (_ & _ & _ & Hsn & Hsv). cbn [fst snd] in *.
  assert (Hone : split_on ";" (name +:+ String "=" value)
                 = [name +:+ String "=" value]).
  { apply split_on_absent. rewrite occurs_app. cbn [occurs].
    now rewrite Hsn, Hsv. }
  rewrite reverse_cons, list_to_map_app.
  destruct rest as [|q rest].
  - cbn [header]. rewrite append_cons, append_nil.
    unfold parse_cookie_string. rewrite Hone. cbn [foldl].
    rewrite (add_cookie_pair _ _ _ Hc). cbn [reverse rev_append list_to_map foldr].
    now rewrite (left_id_L ∅ (∪)).
  - rewrite <- IH.
    change (header ((name, value) :: q :: rest))
      with (name +:+ "=" +:+ value +:+ "; " +:+ header (q :: rest)).
    generalize (header (q :: rest)) as h. intros h.
    rewrite !append_cons, !append_nil.
    replace (name +:+ String "=" (value +:+ String ";" (String " " h)))
      with ((name +:+ String "=" value) +:+ String ";" (String " " h))
      by now rewrite append_assoc, append_cons.
    unfold parse_cookie_string at 1.
    rewrite split_on_app, foldl_app, Hone. cbn [foldl].
    rewrite foldl_add_cookie_union, (add_cookie_pair _ _ _ Hc).
    fold (parse_cookie_string (String " " h)).
    now rewrite parse_cookie_string_space.
Qed.

End CookieFacts.

(** * The further properties on sample inputs *)

Section MoreParserSamples.
Import Re Parser Room Text Sample Blocks.

Lemma rollover_blob_raises :
  extract_events (fun html => Ok html) (JStr rollover_blob) = Raise ValueError /\
  ((ValueError = TypeError /\ truthy (JStr rollover_blob) = true /\
    forall s, JStr rollover_blob <> JStr s) \/
   (exists s block,
      JStr rollover_blob = JStr s /\
      block ∈ findall EVENT_BLOCK_RE s /\
      parse_block (fun html => Ok html) block = Raise ValueError /\
      (ValueError = ValueError \/
       (fun html => Ok html) (field_html "title" block) = Raise ValueError \/
       (fun html => Ok html) (field_html "body" block) = Raise ValueError))).
Proof.
  assert (Hx : extract_events (fun html => Ok html) (JStr rollover_blob)
               = Raise ValueError).
  { vm_compute. reflexivity. }
  split; [exact Hx|].
  exact (extract_events_raises (fun html => Ok html) (JStr rollover_blob)
           ValueError Hx).
Defined.

Lemma algav_record_bounds :
  parse_block (fun html => Ok html) algav_block = Ok (Some algav) /\
  ev_summary algav <> EmptyString /\
  (String.length (ev_summary algav) <= 200)%nat /\
  (String.length (ev_description algav) <= 2000)%nat /\
  valid_fields (year (ev_start algav)) (month (ev_start algav))
    (day (ev_start algav)) (hour (ev_start algav)) (minute (ev_start algav))
    = true /\
  valid_fields (year (ev_end algav)) (month (ev_end algav))
    (day (ev_end algav)) (hour (ev_end algav)) (minute (ev_end algav)) = true.
Proof.
  assert (Hb : parse_block (fun html => Ok html) algav_block = Ok (Some algav)).
  { vm_compute. reflexivity. }
  split; [exact Hb|].
  exact (record_bounds (fun html => Ok html) algav_block algav Hb).
Defined.

Lemma algav_date_tokens :
  parse_block (fun html => Ok html) algav_block = Ok (Some algav) /\
  exists sm em,
    search DATE_RE algav_block 0 = Some sm /\
    search DATE_RE algav_block (m_end sm) = Some em /\
    _parse_js_date sm = Ok (ev_start algav) /\
    _parse_js_date em = Ok (ev_end algav) /\
    (m_start sm <= m_end sm <= m_start em)%nat /\
    (m_start em <= m_end em <= String.length algav_block)%nat /\
    m_group0 sm
    = Str.take (m_end sm - m_start sm) (Str.drop (m_start sm) algav_block) /\
    m_group0 em
    = Str.take (m_end em - m_start em) (Str.drop (m_start em) algav_block).
Proof.
  assert (Hb : parse_block (fun html => Ok html) algav_block = Ok (Some algav)).
  { vm_compute. reflexivity. }
  split; [exact Hb|].
  exact (date_tokens_in_order (fun html => Ok html) algav_block algav Hb).
Defined.

Lemma algav_location_in_title :
  parse_block (fun html => Ok html) algav_block = Ok (Some algav) /\
  exists title_txt,
    _strip_html (fun html => Ok html) (field_html "title" algav_block)
      = Ok title_txt /\
    substring (ev_location algav) title_txt /\
    (title_txt = EmptyString ->
     ev_location algav = EmptyString /\ ev_summary algav = "Class").
Proof.
  assert (Hb : parse_block (fun html => Ok html) algav_block = Ok (Some algav)).
  { vm_compute. reflexivity. }
  split; [exact Hb|].
  exact (location_within_title (fun html => Ok html) algav_block algav Hb).
Defined.

End MoreParserSamples.

Section MoreCycleSamples.
Import Main Reference Driver Upstream Records Blocks.

Lemma second_request_is_served_from_cache :
  @calendar offline initial w0
  = (Ok {| content := [Byte.x42; Byte.x2e];
           media_type := "text/calendar; charset=utf-8" |}, (@calendar offline initial w0).1.2,
     (@calendar offline initial w0).2) /\
  @calendar offline (@calendar offline initial w0).1.2
     (@calendar offline initial w0).2
  = (Ok {| content := [Byte.x42; Byte.x2e];
           media_type := "text/calendar; charset=utf-8" |}, (@calendar offline initial w0).1.2,
     (@now offline (@calendar offline initial w0).2).2).
Proof.
  assert (Hfirst : @calendar offline initial w0
                   = (Ok {| content := [Byte.x42; Byte.x2e];
           media_type := "text/calendar; charset=utf-8" |}, (@calendar offline initial w0).1.2,
                      (@calendar offline initial w0).2)).
  { vm_compute. reflexivity. }
  split; [exact Hfirst|].
  apply (proj1 (@calendar_hit_after_answer offline initial w0 _ _ _ Hfirst)).
  - discriminate.
  - intros expires He. vm_compute in He. injection He as <-.
    vm_compute. reflexivity.
Defined.

Lemma online_requests_guard_total :
  (forall cal ics, @to_ical online cal = Ok ics -> ics <> []) /\
  Forall (fun r => r <> Raise OverflowError) (@serve online 3 initial w0).1.1 /\
  (forall t, exists b,
     needs_refresh (@serve online 3 initial w0).1.2 t = Ok b) /\
  (forall e,
     (@calendar online (@serve online 3 initial w0).1.2
        (@serve online 3 initial w0).2).1.1 = Raise e ->
     (@gather online (@now online (@serve online 3 initial w0).2).2).1
       = Raise e \/
     (e = OverflowError /\
      exists ics,
        (@gather online (@now online (@serve online 3 initial w0).2).2).1
        = Ok ics)).
Proof.
  assert (Hemit : forall cal ics, @to_ical online cal = Ok ics -> ics <> []).
  { intros cal ics [= <-]. discriminate. }
  assert (Hrun : Forall (fun r => r <> Raise OverflowError)
                   (@serve online 3 initial w0).1.1).
  { remember (@serve online 3 initial w0).1.1 as rs eqn:Hrs.
    vm_compute in Hrs. subst rs.
    repeat (constructor; [discriminate|]). constructor. }
  split; [exact Hemit|]. split; [exact Hrun|].
  exact (@sequential_requests_guard_total online 3 w0 Hemit Hrun).
Defined.

Lemma second_request_type_error :
  (@gather online (@now online w0).2).1
    = Ok [Byte.x42; Byte.x45; Byte.x2e] /\
  [Byte.x42; Byte.x45; Byte.x2e] <> [] /\
  rtc (@step online) (@start online 2 initial w0)
    (@exec online [0; 0; 0; 0; 1; 1]%nat (@start online 2 initial w0)) /\
  shared (@exec online [0; 0; 0; 0; 1; 1]%nat (@start online 2 initial w0))
    = {| _cache_ics := Some [Byte.x42; Byte.x45; Byte.x2e];
         _cache_expires := NaiveMin |} /\
  pool (@exec online [0; 0; 0; 0; 1; 1]%nat (@start online 2 initial w0))
    = [AtSetExpires; Failed TypeError].
Proof.
  assert (Hg : (@gather online (@now online w0).2).1
               = Ok [Byte.x42; Byte.x45; Byte.x2e]).
  { vm_compute. reflexivity. }
  assert (Hne : [Byte.x42; Byte.x45; Byte.x2e] <> []) by discriminate.
  split; [exact Hg|]. split; [exact Hne|].
  exact (@guard_between_assignments online w0 _ Hg Hne).
Defined.

Lemma blank_answer_one_request :
  (forall fields v,
     (@post empty_answers (@GET_CODE_WEEK_URL empty_answers)
        (JObj [("data", JStr (@strftime empty_answers (@now empty_answers w0).1))])
        w0).1
     = Some {| status_ok := true; body := Some (JObj fields) |} ->
     last_field "d" fields None = Some v -> truthy v = false) /\
  @fetch_window empty_answers (@now empty_answers w0).1 w0 = (None, sent w0).
Proof.
  assert (Hd : forall fields v,
     (@post empty_answers (@GET_CODE_WEEK_URL empty_answers)
        (JObj [("data", JStr (@strftime empty_answers (@now empty_answers w0).1))])
        w0).1
     = Some {| status_ok := true; body := Some (JObj fields) |} ->
     last_field "d" fields None = Some v -> truthy v = false).
  { intros fields v [= <-]. discriminate. }
  split; [exact Hd|].
  exact (@fetch_window_unresolved empty_answers (@now empty_answers w0).1 w0 Hd).
Defined.

Lemma short_and_long_share_uid :
  exists va vb,
    ev_start short_A = ev_start long_A /\
    ev_summary short_A = ev_summary long_A /\
    ev_end short_A <> ev_end long_A /\
    @vevent online short_A = Ok va /\
    @vevent online long_A = Ok vb /\
    (merge_week [short_A; long_A] [] ∅).1 = [short_A; long_A] /\
    prop "uid" va = prop "uid" vb /\
    exists uid, prop "uid" va = [VText uid].
Proof.
  assert (Hs : ev_start short_A = ev_start long_A) by reflexivity.
  assert (Hm : ev_summary short_A = ev_summary long_A) by reflexivity.
  assert (He : ev_end short_A <> ev_end long_A) by discriminate.
  destruct (@vevent online short_A) as [va|] eqn:Ha; [|discriminate].
  destruct (@vevent online long_A) as [vb|] eqn:Hb; [|discriminate].
  exists va, vb. do 3 (split; [assumption|]). do 2 (split; [reflexivity|]).
  exact (@uid_shared_by_kept_records online short_A long_A va vb
           Hs Hm He Ha Hb).
Defined.

Lemma algav_in_cycle :
  (@cycle_records online w0).1 = Ok [algav] /\
  algav ∈ [algav] /\
  (exists block,
     Parser.parse_block (@soup_get_text online) block = Ok (Some algav)) /\
  ev_summary algav <> EmptyString /\
  (forall ve, @vevent online algav = Ok ve ->
     prop "summary" ve = [VText (ev_summary algav)]).
Proof.
  assert (Hrec : (@cycle_records online w0).1 = Ok [algav]).
  { vm_compute. reflexivity. }
  assert (Hin : algav ∈ [algav]) by left.
  split; [exact Hrec|]. split; [exact Hin|].
  exact (@cycle_records_parsed online w0 [algav] algav Hrec Hin).
Defined.

End MoreCycleSamples.

Section CookieSamples.
Import Text Cookies Blocks.

Lemma session_cookie_clean :
  parse_cookie_string (header two_cookies) !! "_ga"
    = Some "GA1.1.1519809505.1756756750" /\
  clean "_ga" "GA1.1.1519809505.1756756750".
Proof.
  assert (Hl : parse_cookie_string (header two_cookies) !! "_ga"
               = Some "GA1.1.1519809505.1756756750").
  { vm_compute. reflexivity. }
  split; [exact Hl|].
  exact (parse_cookie_string_clean (header two_cookies) "_ga"
           "GA1.1.1519809505.1756756750" Hl).
Defined.

Lemma two_cookie_header :
  Forall (fun c => clean c.1 c.2) two_cookies /\
  parse_cookie_string (header two_cookies) = list_to_map (reverse two_cookies).
Proof.
  assert (Hc : Forall (fun c => clean c.1 c.2) two_cookies).
  { repeat constructor. }
  split; [exact Hc|].
  exact (parse_cookie_string_header two_cookies Hc).
Defined.

End CookieSamples.
